(** * Line reconciliation between a coverage report and a unified diff

    A shallow embedding of [services/comparison.py]: the traverse manager
    that walks base and head line numbers along the diff segments, the two
    visitors it drives, the per-file comparison built on them and the
    pull-request level comparison with its cache of changed files. *)

From Stdlib Require Import Ascii.
From stdpp Require Import gmap strings list fin_maps pretty.

Open Scope Z_scope.

(** ** Outcomes of Python code

    A call returns a value, raises, or (for the one loop of the module) is
    still running when the iteration budget of the model is spent. *)

(** [ConnectionError] is [redis.exceptions.ConnectionError], which derives
    from [Exception] and is not an [OSError]. *)
Inductive exn :=
  | IndexError | ValueError | KeyError | AssertionError | OSError | ConnectionError.

Inductive res (A : Type) :=
  | Ok (a : A)
  | Raise (e : exn)
  | OutOfFuel.
Arguments Ok {A} a.
Arguments Raise {A} e.
Arguments OutOfFuel {A}.

#[global] Instance res_ret : MRet res := @Ok.
#[global] Instance res_bind : MBind res := fun A B f m =>
  match m with
  | Ok a => f a
  | Raise e => Raise e
  | OutOfFuel => OutOfFuel
  end.

#[global] Instance exn_eq_dec : EqDecision exn.
Proof. solve_decision. Defined.

(** [l[i]] with Python's index rules: a negative index counts from the end,
    anything outside the list raises [IndexError]. *)
Definition py_index {A} (l : list A) (i : Z) : res A :=
  let j := if bool_decide (i < 0) then i + Z.of_nat (length l) else i in
  if bool_decide (0 ≤ j) then
    match l !! Z.to_nat j with
    | Some x => Ok x
    | None => Raise IndexError
    end
  else Raise IndexError.

(** A string is truthy when it is not empty; [None] is falsy. *)
Definition first_char_is (c : Ascii.ascii) (line_value : option string) : bool :=
  match line_value with
  | Some (String c' _) => bool_decide (c' = c)
  | _ => false
  end.

Definition _is_added (line_value : option string) : bool :=
  first_char_is "+"%char line_value.

Definition _is_removed (line_value : option string) : bool :=
  first_char_is "-"%char line_value.

(** ** Diff segments

    A hunk header is an array of four strings. A field is kept as the
    integer its text denotes, or as [HEmpty] when the text is empty or the
    field is [None]: [int] raises on the latter, and [x or 1] replaces it
    by 1 (a text such as "0" is truthy and stays 0). *)

Inductive hfield := HInt (z : Z) | HEmpty.

Definition int_ (h : hfield) : res Z :=
  match h with
  | HInt z => Ok z
  | HEmpty => Raise ValueError
  end.

Definition int_or_1 (h : hfield) : Z :=
  match h with
  | HInt z => z
  | HEmpty => 1
  end.

Record hunk_header := Header {
  base_offset : hfield;   (* header[0] *)
  base_length : hfield;   (* header[1] *)
  head_offset : hfield;   (* header[2] *)
  head_length : hfield    (* header[3] *)
}.

Record segment := Segment {
  header : hunk_header;     (* segment["header"] *)
  seg_lines : list string   (* segment["lines"] *)
}.

(** ** FileComparisonTraverseManager *)

Record manager := Manager {
  head_file_eof : Z;
  base_file_eof : Z;
  segments : list segment;
  src : list string;
  base_ln : Z;
  head_ln : Z
}.

Definition set_segments (segs : list segment) (m : manager) : manager :=
  Manager (head_file_eof m) (base_file_eof m) segs (src m) (base_ln m) (head_ln m).

Definition set_pointers (b h : Z) (m : manager) : manager :=
  Manager (head_file_eof m) (base_file_eof m) (segments m) (src m) b h.

Definition init (head_eof base_eof : Z) (segs : list segment) (source : list string)
  : res manager :=
  if bool_decide (source ≠ []) && negb (bool_decide (head_eof - 1 ≤ Z.of_nat (length source)))
  then Raise AssertionError
  else
    match segs with
    | s :: _ =>
        b ← int_ (base_offset (header s));
        h ← int_ (head_offset (header s));
        Ok (Manager head_eof base_eof segs source (Z.min 1 b) (Z.min 1 h))
    | [] => Ok (Manager head_eof base_eof segs source 1 1)
    end.

Definition traverse_finished (m : manager) : bool :=
  match segments m with
  | _ :: _ => false
  | [] =>
      if bool_decide (src m ≠ []) then bool_decide (head_ln m > Z.of_nat (length (src m)))
      else bool_decide (head_ln m >= head_file_eof m) && bool_decide (base_ln m >= base_file_eof m)
  end.

Definition traversing_diff (m : manager) : res bool :=
  match segments m with
  | [] => Ok false
  | s :: _ =>
      b ← int_ (base_offset (header s));
      let base_ln_within_offset :=
        bool_decide (b ≤ base_ln m)
        && bool_decide (base_ln m < b + int_or_1 (base_length (header s))) in
      h ← int_ (head_offset (header s));
      let head_ln_within_offset :=
        bool_decide (h ≤ head_ln m)
        && bool_decide (head_ln m < h + int_or_1 (head_length (header s))) in
      Ok (base_ln_within_offset || head_ln_within_offset)
  end.

(** [pop_line] returns the line value and the manager with the popped line
    removed from the first segment; [None] is the value of a call that
    falls off the end of the function. *)
Definition pop_line (m : manager) : res (option string * manager) :=
  d ← traversing_diff m;
  if d : bool then
    match segments m with
    | s :: rest =>
        match seg_lines s with
        | l :: ls => Ok (Some l, set_segments (Segment (header s) ls :: rest) m)
        | [] => Raise IndexError
        end
    | [] => Raise IndexError
    end
  else if bool_decide (src m ≠ []) then
    l ← py_index (src m) (head_ln m - 1);
    Ok (Some l, m)
  else Ok (None, m).

(** Visitors are callables [visitor(base_ln, head_ln, value, is_diff)] that
    keep their results in their own state. *)
Class Visitor (V : Type) :=
  call : V → option Z → option Z → option string → bool → res V.

(** A list of two visitors is called in order. *)
#[global] Instance pair_visitor {A B} `{!Visitor A, !Visitor B} : Visitor (A * B) :=
  fun v base head value is_diff =>
    a ← call v.1 base head value is_diff;
    b ← call v.2 base head value is_diff;
    Ok (a, b).

(** The events a visitor receives, for a visitor that only records them. *)
Record event := Event {
  ev_base_ln : option Z;
  ev_head_ln : option Z;
  ev_value : option string;
  ev_is_diff : bool
}.

#[global] Instance recorder : Visitor (list event) :=
  fun evs base head value is_diff => Ok (evs ++ [Event base head value is_diff]).

Definition visit {V} `{!Visitor V} (m : manager) (line_value : option string) (visitors : V)
  : res V :=
  is_diff ← traversing_diff m;
  call visitors
    (if _is_added line_value then None else Some (base_ln m))
    (if _is_removed line_value then None else Some (head_ln m))
    line_value is_diff.

Definition advance (line_value : option string) (m : manager) : manager :=
  if _is_added line_value then set_pointers (base_ln m) (head_ln m + 1) m
  else if _is_removed line_value then set_pointers (base_ln m + 1) (head_ln m) m
  else set_pointers (base_ln m + 1) (head_ln m + 1) m.

Definition retire (m : manager) : manager :=
  match segments m with
  | s :: rest =>
      match seg_lines s with
      | [] => set_segments rest m
      | _ :: _ => m
      end
  | [] => m
  end.

(** One turn of the [while] loop of [apply]. *)
Definition iteration {V} `{!Visitor V} (m : manager) (visitors : V) : res (manager * V) :=
  '(line_value, m1) ← pop_line m;
  v ← visit m1 line_value visitors;
  Ok (retire (advance line_value m1), v).

(** [apply]: the loop, with at most [fuel] turns. *)
Fixpoint apply {V} `{!Visitor V} (fuel : nat) (m : manager) (visitors : V)
  : res (manager * V) :=
  if traverse_finished m then Ok (m, visitors)
  else
    match fuel with
    | O => OutOfFuel
    | S fuel' =>
        '(m', v) ← iteration m visitors;
        apply fuel' m' v
    end.

(** ** Coverage reports (the [shared] library's data, as this module reads it)

    A report line in its array form is [[coverage, type, sessions, ...]] and
    a session is [[id, coverage, ...]]; only the cells this module indexes
    are kept. Coverage values are untyped in the source. *)

Inductive pyval :=
  | PNone
  | PBool (b : bool)
  | PInt (z : Z)
  | PStr (s : string).

#[global] Instance pyval_eq_dec : EqDecision pyval.
Proof. solve_decision. Defined.

Record line_session := LineSession {
  session_id : Z;           (* session[0] *)
  s_coverage : pyval        (* session[1] *)
}.

Record report_line := ReportLine {
  coverage_value : pyval;               (* line[0] *)
  line_sessions : list line_session     (* line[2] *)
}.

(** A cell of [ReportFile._lines]: falsy (an empty string or [None]), a line
    array, or the text of an old version that is decoded on reading. *)
Inductive cell :=
  | CellEmpty
  | CellList (l : report_line)
  | CellStr (s : string).

Record ReportFile := {
  name : string;
  _lines : list cell;
  eof : Z
}.

Module LineType.
Inductive t := skipped | miss | hit | partial.
#[global] Instance eq_dec : EqDecision t.
Proof. solve_decision. Defined.
End LineType.

(** What this module imports and cannot see: [shared.utils.merge.line_type],
    which maps a coverage value to a [LineType] or to [None], and
    [json.loads] on the text of an old-version line, which gives the line
    array the text encodes, [None] for the text [null], and raises on a
    text that is not JSON. *)
Class Shared := {
  line_type : pyval → option LineType.t;
  json_loads : string → res (option report_line)
}.

(** [==] between a Python value and an int: [True == 1] and [False == 0]. *)
Definition py_eq_int (v : pyval) (n : Z) : bool :=
  match v with
  | PInt z => bool_decide (z = n)
  | PBool b => bool_decide ((if b then 1 else 0) = n)
  | _ => false
  end.

(** [a + b] on the values above; [TypeError] is folded into [ValueError]. *)
Definition py_add (a b : pyval) : res pyval :=
  match a, b with
  | PInt x, PInt y => Ok (PInt (x + y))
  | PInt x, PBool y => Ok (PInt (x + (if y then 1 else 0)))
  | PBool x, PInt y => Ok (PInt ((if x then 1 else 0) + y))
  | PBool x, PBool y => Ok (PInt ((if x then 1 else 0) + (if y then 1 else 0)))
  | PStr x, PStr y => Ok (PStr (x +:+ y))
  | _, _ => Raise ValueError
  end.

Fixpoint reduce_from {A} (f : A → A → res A) (acc : A) (l : list A) : res A :=
  match l with
  | [] => Ok acc
  | x :: xs => a ← f acc x; reduce_from f a xs
  end.

(** [functools.reduce(f, l)] without an initial value. *)
Definition functools_reduce {A} (f : A → A → res A) (l : list A) : res A :=
  match l with
  | [] => Raise ValueError
  | x :: xs => reduce_from f x xs
  end.

(** ** [collections.Counter]: a missing key reads as 0 *)

Definition counter_get (c : gmap string Z) (k : string) : Z := default 0 (c !! k).

Definition counter_add (k : string) (d : Z) (c : gmap string Z) : gmap string Z :=
  <[k := counter_get c k + d]> c.

(** ** Line comparisons *)

Record LineComparison := {
  lc_base_line : option report_line;
  lc_head_line : option report_line;
  lc_head_ln : option Z;
  lc_base_ln : option Z;
  lc_value : option string;
  lc_is_diff : bool;
  added : bool;
  removed : bool
}.

Definition new_LineComparison (base_line head_line : option report_line)
    (base_ln head_ln : option Z) (value : option string) (is_diff : bool) : LineComparison :=
  {| lc_base_line := base_line; lc_head_line := head_line;
     lc_head_ln := head_ln; lc_base_ln := base_ln;
     lc_value := value; lc_is_diff := is_diff;
     added := _is_added value; removed := _is_removed value |}.

(** [LineComparison.number] as the pair (base, head). *)
Definition number (lc : LineComparison) : option Z * option Z :=
  (if added lc then None else lc_base_ln lc,
   if removed lc then None else lc_head_ln lc).

(** [LineComparison.sessions] *)
Definition sessions (lc : LineComparison) : res (option pyval) :=
  match lc_head_line lc with
  | None => Ok None
  | Some head_line =>
      let session_coverage :=
        s_coverage <$> filter (λ session, py_eq_int (s_coverage session) 1 = true)
                              (line_sessions head_line) in
      match session_coverage with
      | [] => Ok None
      | _ :: _ => r ← functools_reduce py_add session_coverage; Ok (Some r)
      end
  end.

(** ** FileComparisonVisitor and its two subclasses *)

Section Visitors.
Context `{Shared}.

Definition _get_line (report_file : option ReportFile) (ln : option Z)
  : res (option report_line) :=
  match report_file, ln with
  | Some rf, Some n =>
      match py_index (_lines rf) (n - 1) with
      | Raise IndexError => Ok None
      | Raise e => Raise e
      | OutOfFuel => OutOfFuel
      | Ok CellEmpty => Ok None
      | Ok (CellList l) => Ok (Some l)
      | Ok (CellStr s) => json_loads s
      end
  | _, _ => Ok None
  end.

Definition _get_lines (base_file head_file : option ReportFile) (base_ln head_ln : option Z)
  : res (option report_line * option report_line) :=
  base_line ← _get_line base_file base_ln;
  head_line ← _get_line head_file head_ln;
  Ok (base_line, head_line).

Record CreateLineComparisonVisitor := {
  clv_base_file : option ReportFile;
  clv_head_file : option ReportFile;
  clv_lines : list LineComparison
}.

#[global] Instance line_comparison_visitor : Visitor CreateLineComparisonVisitor :=
  fun self base_ln head_ln value is_diff =>
    match value with
    | None => Ok self
    | Some _ =>
        '(base_line, head_line) ←
          _get_lines (clv_base_file self) (clv_head_file self) base_ln head_ln;
        Ok {| clv_base_file := clv_base_file self;
              clv_head_file := clv_head_file self;
              clv_lines := clv_lines self ++
                [new_LineComparison base_line head_line base_ln head_ln value is_diff] |}
    end.

Record CreateChangeSummaryVisitor := {
  csv_base_file : option ReportFile;
  csv_head_file : option ReportFile;
  summary : gmap string Z
}.

(** [self.coverage_type_map[t]]: a key outside the map raises. *)
Definition coverage_type_map (t : option LineType.t) : res string :=
  match t with
  | Some LineType.hit => Ok "hits"%string
  | Some LineType.miss => Ok "misses"%string
  | Some LineType.partial => Ok "partials"%string
  | _ => Raise KeyError
  end.

Definition _update_summary (s : gmap string Z) (base_line head_line : report_line)
  : res (gmap string Z) :=
  kb ← coverage_type_map (line_type (coverage_value base_line));
  let s1 := counter_add kb (-1) s in
  kh ← coverage_type_map (line_type (coverage_value head_line));
  Ok (counter_add kh 1 s1).

#[global] Instance change_summary_visitor : Visitor CreateChangeSummaryVisitor :=
  fun self base_ln head_ln value is_diff =>
    if first_char_is "+"%char value || first_char_is "-"%char value then Ok self
    else
      '(base_line, head_line) ←
        _get_lines (csv_base_file self) (csv_head_file self) base_ln head_ln;
      match base_line, head_line with
      | Some bl, Some hl =>
          if bool_decide (line_type (coverage_value bl) = line_type (coverage_value hl))
          then Ok self
          else
            s ← _update_summary (summary self) bl hl;
            Ok {| csv_base_file := csv_base_file self;
                  csv_head_file := csv_head_file self;
                  summary := s |}
      | _, _ => Ok self
      end.
End Visitors.

(** ** FileComparison *)

Definition MAX_DIFF_SIZE : Z := 170.

(** The diff document of one file: its segments and the name of the file
    in the base reference when it differs. Every such dict has the key
    ["segments"] ([__init__] reads it), so it is never an empty dict. *)
Record diff_data := DiffData {
  dd_segments : list segment;
  dd_before : option string
}.

(** The object: the fields set by [__init__], one slot per
    [cached_property], and [passes], which is not in the source and counts
    how many times the traverse manager was run for this object. *)
Record FileComparison := {
  fc_base_file : option ReportFile;
  fc_head_file : option ReportFile;
  fc_diff_data : option diff_data;
  fc_src : list string;
  total_diff_length : Z;
  bypass_max_diff : bool;
  should_search_for_changes : option bool;
  slot_calculated : option (gmap string Z * list LineComparison);
  slot_change_summary : option (gmap string Z);
  slot_lines : option (option (list LineComparison));
  passes : nat
}.

Definition new_FileComparison (base_file head_file : option ReportFile)
    (diff : option diff_data) (source : list string) (bypass : bool)
    (hint : option bool) : res FileComparison :=
  n ← match diff with
      | Some d =>
          if bool_decide (dd_segments d ≠ []) then
            functools_reduce (λ a b, Ok (a + b))
              ((λ segment, Z.of_nat (length (seg_lines segment))) <$> dd_segments d)
          else Ok 0
      | None => Ok 0
      end;
  Ok {| fc_base_file := base_file; fc_head_file := head_file;
        fc_diff_data := diff; fc_src := source;
        total_diff_length := n; bypass_max_diff := bypass;
        should_search_for_changes := hint;
        slot_calculated := None; slot_change_summary := None; slot_lines := None;
        passes := 0 |}.

Definition has_diff (fc : FileComparison) : bool :=
  bool_decide (fc_diff_data fc ≠ None).

Definition set_calculated (r : gmap string Z * list LineComparison)
    (segs : option (list segment)) (ran : bool) (fc : FileComparison) : FileComparison :=
  {| fc_base_file := fc_base_file fc; fc_head_file := fc_head_file fc;
     fc_diff_data :=
       match segs, fc_diff_data fc with
       | Some l, Some d => Some (DiffData l (dd_before d))
       | _, d => d
       end;
     fc_src := fc_src fc;
     total_diff_length := total_diff_length fc; bypass_max_diff := bypass_max_diff fc;
     should_search_for_changes := should_search_for_changes fc;
     slot_calculated := Some r;
     slot_change_summary := slot_change_summary fc; slot_lines := slot_lines fc;
     passes := if ran then S (passes fc) else passes fc |}.

Definition set_change_summary (s : gmap string Z) (fc : FileComparison) : FileComparison :=
  {| fc_base_file := fc_base_file fc; fc_head_file := fc_head_file fc;
     fc_diff_data := fc_diff_data fc; fc_src := fc_src fc;
     total_diff_length := total_diff_length fc; bypass_max_diff := bypass_max_diff fc;
     should_search_for_changes := should_search_for_changes fc;
     slot_calculated := slot_calculated fc;
     slot_change_summary := Some s; slot_lines := slot_lines fc;
     passes := passes fc |}.

Definition set_lines (l : option (list LineComparison)) (fc : FileComparison) : FileComparison :=
  {| fc_base_file := fc_base_file fc; fc_head_file := fc_head_file fc;
     fc_diff_data := fc_diff_data fc; fc_src := fc_src fc;
     total_diff_length := total_diff_length fc; bypass_max_diff := bypass_max_diff fc;
     should_search_for_changes := should_search_for_changes fc;
     slot_calculated := slot_calculated fc;
     slot_change_summary := slot_change_summary fc; slot_lines := Some l;
     passes := passes fc |}.

Section FileComparisons.
Context `{Shared}.

(** Whether the body of [_calculated_changes_and_lines] runs the manager:
    [self.diff_data or self.should_search_for_changes is not False]. *)
Definition runs_pass (fc : FileComparison) : bool :=
  bool_decide (fc_diff_data fc ≠ None)
  || negb (bool_decide (should_search_for_changes fc = Some false)).

(** The body of [_calculated_changes_and_lines]: the result, and the
    segments as the manager leaves them (it pops from the lists of
    [diff_data], which it shares). *)
Definition calculate (fuel : nat) (fc : FileComparison)
  : res (gmap string Z * list LineComparison * option (list segment)) :=
  let change_summary_visitor :=
    {| csv_base_file := fc_base_file fc; csv_head_file := fc_head_file fc;
       summary := ∅ |} in
  let create_lines_visitor :=
    {| clv_base_file := fc_base_file fc; clv_head_file := fc_head_file fc;
       clv_lines := [] |} in
  if runs_pass fc then
    m ← init (from_option eof 0 (fc_head_file fc))
             (from_option eof 0 (fc_base_file fc))
             (from_option dd_segments [] (fc_diff_data fc))
             (fc_src fc);
    '(m', v) ← apply fuel m (change_summary_visitor, create_lines_visitor);
    Ok (summary v.1, clv_lines v.2, Some (segments m'))
  else Ok (summary change_summary_visitor, clv_lines create_lines_visitor, None).

(** The three cached properties: each returns its value and the object
    with the slot filled. A raise leaves the object as it was. *)
Definition _calculated_changes_and_lines (fuel : nat) (fc : FileComparison)
  : res (gmap string Z * list LineComparison * FileComparison) :=
  match slot_calculated fc with
  | Some r => Ok (r, fc)
  | None =>
      '(s, l, segs) ← calculate fuel fc;
      Ok (s, l, set_calculated (s, l) segs (runs_pass fc) fc)
  end.

Definition change_summary (fuel : nat) (fc : FileComparison)
  : res (gmap string Z * FileComparison) :=
  match slot_change_summary fc with
  | Some s => Ok (s, fc)
  | None =>
      '(s, _, fc') ← _calculated_changes_and_lines fuel fc;
      Ok (s, set_change_summary s fc')
  end.

Definition lines (fuel : nat) (fc : FileComparison)
  : res (option (list LineComparison) * FileComparison) :=
  match slot_lines fc with
  | Some l => Ok (l, fc)
  | None =>
      if bool_decide (total_diff_length fc > MAX_DIFF_SIZE) && negb (bypass_max_diff fc)
      then Ok (None, set_lines None fc)
      else
        '(_, l, fc') ← _calculated_changes_and_lines fuel fc;
        Ok (Some l, set_lines (Some l) fc')
  end.
End FileComparisons.

(** ** The cache (redis)

    The values this module stores under a key and reads back are JSON
    documents: [null] or a list of file names. A document is kept as its
    content. On a connection that is down every call of the client raises
    its [ConnectionError]. *)

Inductive json := JNull | JList (l : list string).

Definition json_dumps (v : option (list string)) : json :=
  match v with
  | None => JNull
  | Some l => JList l
  end.

Definition json_loads_names (j : json) : option (list string) :=
  match j with
  | JNull => None
  | JList l => Some l
  end.

Record Redis := {
  connected : bool;
  store : gmap string json
}.

Definition redis_get (key : string) (r : Redis) : res (option json) :=
  if connected r then Ok (store r !! key) else Raise ConnectionError.

Definition redis_set (key : string) (value : json) (r : Redis) : res Redis :=
  if connected r then Ok {| connected := true; store := <[key := value]> (store r) |}
  else Raise ConnectionError.

(** ** Comparison

    The reports and the diff come from the report service and the
    repository provider; they are fields here, already fetched. *)

Record Report := {
  report_files : list string;             (* report.files *)
  file_reports : gmap string ReportFile
}.

Definition report_get (r : Report) (file_name : option string) : option ReportFile :=
  match file_name with
  | Some n => file_reports r !! n
  | None => None
  end.

Record Comparison := {
  pullid : option Z;
  service : string;         (* base_commit.repository.author.service *)
  username : string;        (* base_commit.repository.author.username *)
  repo_name : string;       (* base_commit.repository.name *)
  head_report : Report;
  base_report : option Report;
  diff_files : gmap string diff_data;       (* git_comparison["diff"]["files"] *)
  get_source : string → list string;        (* the provider's source, split in lines *)
  _files_with_changes : option (list string)
}.

Definition cache_key (service username repo_name : string) (pull : Z) : string :=
  String.concat "/" ["compare-changed-files"%string; service; username; repo_name; pretty pull].

(** The [try] block catches [OSError] only: it is logged and the method
    falls off its end, returning [None]. Any other exception goes on to the
    caller. *)
Definition _retrieve_files_with_changes_from_cache
    (pull : option Z) (service username repo_name : string) (r : Redis)
  : res (option (list string)) :=
  match pull with
  | Some p =>
      match redis_get (cache_key service username repo_name p) r with
      | Ok (Some doc) => Ok (json_loads_names doc)
      | Ok None => Ok (json_loads_names (json_dumps None))
      | Raise OSError => Ok None
      | Raise e => Raise e
      | OutOfFuel => OutOfFuel
      end
  | None => Ok None
  end.

(** [Comparison.__init__]: the probe of the cache is its last statement. *)
Definition new_Comparison (pull : option Z) (service username repo_name : string)
    (head : Report) (base : option Report) (diff : gmap string diff_data)
    (source : string → list string) (r : Redis) : res Comparison :=
  probe ← _retrieve_files_with_changes_from_cache pull service username repo_name r;
  Ok {| pullid := pull; service := service; username := username; repo_name := repo_name;
        head_report := head; base_report := base; diff_files := diff; get_source := source;
        _files_with_changes := probe |}.

Definition _set_files_with_changes_in_cache_if_not_already_set
    (self : Comparison) (files_with_changes : list string) (r : Redis) : res Redis :=
  match _files_with_changes self, pullid self with
  | None, Some p =>
      redis_set (cache_key (service self) (username self) (repo_name self) p)
                (json_dumps (Some files_with_changes)) r
  | _, _ => Ok r
  end.

Definition get_file_comparison (self : Comparison) (file_name : string)
    (with_src bypass : bool) : res FileComparison :=
  let head_file := report_get (head_report self) (Some file_name) in
  let diff := diff_files self !! file_name in
  let base_file :=
    match base_report self with
    | Some base =>
        match report_get base (Some file_name), diff with
        | None, Some d => report_get base (dd_before d)
        | f, _ => f
        end
    | None => None
    end in
  let source := if with_src then get_source self file_name else [] in
  new_FileComparison base_file head_file diff source bypass
    (match _files_with_changes self with
     | None => None
     | Some l => Some (bool_decide (file_name ∈ l))
     end).

(** The diff of a file is shared between the comparison and the file
    comparison built from it: what the manager popped is gone for both. *)
Definition store_diff (file_name : string) (fc : FileComparison) (self : Comparison)
  : Comparison :=
  {| pullid := pullid self; service := service self; username := username self;
     repo_name := repo_name self; head_report := head_report self;
     base_report := base_report self;
     diff_files :=
       match fc_diff_data fc with
       | Some d => <[file_name := d]> (diff_files self)
       | None => diff_files self
       end;
     get_source := get_source self;
     _files_with_changes := _files_with_changes self |}.

(** The generator behind [Comparison.files]: the names still to visit, the
    local [files_with_changes], and whether the body has returned. *)
Record files_generator := {
  pending : list string;
  files_with_changes : list string;
  returned : bool
}.

Definition files (self : Comparison) : files_generator :=
  {| pending := report_files (head_report self); files_with_changes := []; returned := false |}.

Section Generator.
Context `{Shared}.

(** [next(generator)]: [Some] file comparison for a [yield], [None] for
    [StopIteration]. *)
Definition next (fuel : nat) (self : Comparison) (r : Redis) (g : files_generator)
  : res (option FileComparison * Comparison * Redis * files_generator) :=
  if returned g then Ok (None, self, r, g)
  else
    match pending g with
    | file_name :: rest =>
        file_comparison ← get_file_comparison self file_name false false;
        '(s, fc) ← change_summary fuel file_comparison;
        let acc :=
          if bool_decide (s ≠ ∅) then files_with_changes g ++ [file_name]
          else files_with_changes g in
        Ok (Some fc, store_diff file_name fc self, r,
            {| pending := rest; files_with_changes := acc; returned := false |})
    | [] =>
        r' ← _set_files_with_changes_in_cache_if_not_already_set
               self (files_with_changes g) r;
        Ok (None, self, r',
            {| pending := []; files_with_changes := files_with_changes g;
               returned := true |})
    end.

(** [k] calls of [next] in a row, collecting what was yielded. *)
Fixpoint take (k : nat) (fuel : nat) (self : Comparison) (r : Redis) (g : files_generator)
  : res (list FileComparison * Comparison * Redis * files_generator) :=
  match k with
  | O => Ok ([], self, r, g)
  | S k' =>
      '(y, self', r', g') ← next fuel self r g;
      '(ys, self'', r'', g'') ← take k' fuel self' r' g';
      Ok (from_option (λ fc, [fc]) [] y ++ ys, self'', r'', g'')
  end.
End Generator.

(** ** Vocabulary of the statements *)

(** The raw value is a text whose first character is [c]. *)
Definition starts_with (c : Ascii.ascii) (value : option string) : Prop :=
  ∃ rest, value = Some (String c rest).

(** A run of events read against the two pointers: from [(b, h)] the events
    lead to [(b', h')], each one numbered and advancing as its prefix says. *)
Inductive classified : Z → Z → list event → Z → Z → Prop :=
  | classified_nil b h : classified b h [] b h
  | classified_removed b h e evs b' h' :
      starts_with "-" (ev_value e) →
      ev_base_ln e = Some b → ev_head_ln e = None →
      classified (b + 1) h evs b' h' →
      classified b h (e :: evs) b' h'
  | classified_added b h e evs b' h' :
      starts_with "+" (ev_value e) →
      ev_base_ln e = None → ev_head_ln e = Some h →
      classified b (h + 1) evs b' h' →
      classified b h (e :: evs) b' h'
  | classified_unchanged b h e evs b' h' :
      ¬ starts_with "-" (ev_value e) → ¬ starts_with "+" (ev_value e) →
      ev_base_ln e = Some b → ev_head_ln e = Some h →
      classified (b + 1) (h + 1) evs b' h' →
      classified b h (e :: evs) b' h'.

(** The event of an unchanged line outside any hunk of a file without
    source: both numbers, no value. *)
Definition plain_event (k : Z) : event := Event (Some k) (Some k) None false.

(** The sessions of a line that count as hits for [sessions]. *)
Definition hit_sessions (l : report_line) : list line_session :=
  filter (λ session, py_eq_int (s_coverage session) 1 = true) (line_sessions l).

(** The three categories of a change summary, and their sum. *)
Definition categories : list string := ["hits"; "misses"; "partials"]%string.

Definition category_sum (s : gmap string Z) : Z :=
  counter_get s "hits" + counter_get s "misses" + counter_get s "partials".

(** Reading the value out of a property access. *)
#[global] Instance res_fmap : FMap res := fun A B f m =>
  match m with
  | Ok a => Ok (f a)
  | Raise e => Raise e
  | OutOfFuel => OutOfFuel
  end.

(** The number of raw lines in the segments of a diff. *)
Definition diff_line_count (diff : option diff_data) : Z :=
  match diff with
  | Some d => Z.of_nat (sum_list_with (λ segment, length (seg_lines segment)) (dd_segments d))
  | None => 0
  end.

(** Reads of the cached properties of a file comparison, one after the
    other on the same object; a raise ends the sequence. *)
Inductive access := GetCalculated | GetChangeSummary | GetLines.

#[global] Instance access_eq_dec : EqDecision access.
Proof. solve_decision. Defined.

Definition read `{Shared} (fuel : nat) (a : access) (fc : FileComparison)
  : res FileComparison :=
  match a with
  | GetCalculated => snd <$> _calculated_changes_and_lines fuel fc
  | GetChangeSummary => snd <$> change_summary fuel fc
  | GetLines => snd <$> lines fuel fc
  end.

Fixpoint read_all `{Shared} (fuel : nat) (l : list access) (fc : FileComparison)
  : res FileComparison :=
  match l with
  | [] => Ok fc
  | a :: l' => fc' ← read fuel a fc; read_all fuel l' fc'
  end.

(** The pass is left out for this file comparison: no diff, and a hint
    that is [False]. *)
Definition skipped (fc : FileComparison) : bool :=
  negb (has_diff fc) && bool_decide (should_search_for_changes fc = Some false).

(** What the slots and the pass counter of a file comparison satisfy at
    any time. *)
Definition memo_ok (fc : FileComparison) : Prop :=
  passes fc = match slot_calculated fc with
              | Some _ => if skipped fc then 0%nat else 1%nat
              | None => 0%nat
              end ∧
  (∀ r, slot_calculated fc = Some r → skipped fc = true → r = (∅, [])) ∧
  (∀ s, slot_change_summary fc = Some s → ∃ l, slot_calculated fc = Some (s, l)).

(** The hint a comparison passes to the file comparison of a file. *)
Definition hint_of (self : Comparison) (file_name : string) : res (option bool) :=
  should_search_for_changes <$> get_file_comparison self file_name false false.

(** The names, among those visited, whose yielded file comparison holds a
    change summary that is not empty. *)
Definition has_changes (fc : FileComparison) : bool :=
  match slot_change_summary fc with
  | Some s => bool_decide (s ≠ ∅)
  | None => false
  end.

Definition changed_names (names : list string) (yielded : list FileComparison)
  : list string :=
  (filter (λ p, has_changes p.2 = true) (zip names yielded)).*1.

(** Two comparisons share what the cache write reads. *)
Definition same_cache_view (c c' : Comparison) : Prop :=
  pullid c' = pullid c ∧ service c' = service c ∧ username c' = username c ∧
  repo_name c' = repo_name c ∧ _files_with_changes c' = _files_with_changes c ∧
  head_report c' = head_report c.

(** ** Well-placed segments

    The lines of a hunk that stand for a line of the base file (all but
    the added ones) and for a line of the head file (all but the removed
    ones). *)
Definition base_count (ls : list string) : Z :=
  Z.of_nat (length (filter (λ l, _is_added (Some l) = false) ls)).

Definition head_count (ls : list string) : Z :=
  Z.of_nat (length (filter (λ l, _is_removed (Some l) = false) ls)).

(** The lines still in segment [s] fit its header when the pointers are at
    [(B, H)]: on each side that has lines left, the pointer is inside the
    window of the header and the lines left do not run past its end.
    [b] and [h] are the two offsets of the header. *)
Definition fits (B H : Z) (s : segment) (b h : Z) : Prop :=
  (0 < base_count (seg_lines s) →
     b ≤ B ∧ B + base_count (seg_lines s) ≤ b + int_or_1 (base_length (header s))) ∧
  (0 < head_count (seg_lines s) →
     h ≤ H ∧ H + head_count (seg_lines s) ≤ h + int_or_1 (head_length (header s))).

(** Segments in ascending order, apart from each other and in step with
    the pointers [(B, H)]: [d] unchanged lines lie between the pointers and
    the first segment, none of them inside its windows; there its lines fit
    its header; its end lies inside the files ([inside], given the two end
    positions and the two counts); and the rest is placed in the same way
    from the end of the segment. A segment has at least one line. *)
Fixpoint well_placed (inside : Z → Z → Z → Z → Prop) (B H : Z) (segs : list segment)
  : Prop :=
  match segs with
  | [] => True
  | s :: rest =>
      ∃ b h d,
        base_offset (header s) = HInt b ∧ head_offset (header s) = HInt h ∧
        seg_lines s ≠ [] ∧ 0 ≤ d ∧
        (0 < d →
           (B + d ≤ b ∨ int_or_1 (base_length (header s)) ≤ 0) ∧
           (H + d ≤ h ∨ int_or_1 (head_length (header s)) ≤ 0)) ∧
        fits (B + d) (H + d) s b h ∧
        inside (B + d + base_count (seg_lines s)) (H + d + head_count (seg_lines s))
               (base_count (seg_lines s)) (head_count (seg_lines s)) ∧
        well_placed inside (B + d + base_count (seg_lines s))
                           (H + d + head_count (seg_lines s)) rest
  end.

(** Without source, a side of a segment that has lines ends before the
    end marker of its file; with a source, the head side ends inside it. *)
Definition inside_eof (base_eof head_eof : Z) (base_end head_end nb nh : Z) : Prop :=
  (0 < nb → base_end ≤ base_eof) ∧ (0 < nh → head_end ≤ head_eof).

Definition inside_src (len : Z) (base_end head_end nb nh : Z) : Prop :=
  head_end ≤ len + 1.

(** A line of source that reads as neither added nor removed. *)
Definition plain_text (l : string) : Prop :=
  _is_added (Some l) = false ∧ _is_removed (Some l) = false.

(** The pointers [__init__] starts from. *)
Definition start_base (segs : list segment) : Z :=
  match segs with
  | s :: _ => Z.min 1 (int_or_1 (base_offset (header s)))
  | [] => 1
  end.

Definition start_head (segs : list segment) : Z :=
  match segs with
  | s :: _ => Z.min 1 (int_or_1 (head_offset (header s)))
  | [] => 1
  end.

(** The inputs of the termination theorem: offsets that are not negative
    and well-placed segments; with a source, moreover, the assertion of
    [__init__], a head offset of at least 1 and only plain source lines. *)
Definition well_formed_input (head_eof base_eof : Z) (segs : list segment)
    (source : list string) : Prop :=
  match source with
  | [] =>
      0 ≤ start_base segs ∧ 0 ≤ start_head segs ∧
      well_placed (inside_eof base_eof head_eof) (start_base segs) (start_head segs) segs
  | _ :: _ =>
      head_eof - 1 ≤ Z.of_nat (length source) ∧
      Forall plain_text source ∧ 1 ≤ start_head segs ∧
      well_placed (inside_src (Z.of_nat (length source)))
                  (start_base segs) (start_head segs) segs
  end.

Definition total_lines (segs : list segment) : nat :=
  sum_list_with (λ segment, length (seg_lines segment)) segs.

(** The number of turns the theorem allows. *)
Definition iteration_bound (head_eof base_eof : Z) (segs : list segment)
    (source : list string) : nat :=
  (total_lines segs +
   match source with
   | [] => Z.to_nat (Z.max base_eof head_eof)
   | _ :: _ => length source
   end)%nat.

(** What decreases at each turn, without and with a source. *)
Definition turns_left_eof (m : manager) : nat :=
  (total_lines (segments m) +
   Z.to_nat (Z.max (base_file_eof m) (head_file_eof m) - Z.min (base_ln m) (head_ln m)))%nat.

Definition turns_left_src (m : manager) : nat :=
  (total_lines (segments m) +
   Z.to_nat (Z.of_nat (length (src m)) + 1 - head_ln m))%nat.

(** What holds at each turn, without and with a source. *)
Definition placed_eof (m : manager) : Prop :=
  src m = [] ∧
  well_placed (inside_eof (base_file_eof m) (head_file_eof m))
              (base_ln m) (head_ln m) (segments m).

Definition placed_src (m : manager) : Prop :=
  src m ≠ [] ∧ Forall plain_text (src m) ∧
  1 ≤ head_ln m ≤ Z.of_nat (length (src m)) + 1 ∧
  well_placed (inside_src (Z.of_nat (length (src m))))
              (base_ln m) (head_ln m) (segments m).

(** ** Traces

    The events of a trace handed to a visitor one after the other. *)
Fixpoint replay {V} `{!Visitor V} (v : V) (trace : list event) : res V :=
  match trace with
  | [] => Ok v
  | e :: trace' =>
      v' ← call v (ev_base_ln e) (ev_head_ln e) (ev_value e) (ev_is_diff e);
      replay v' trace'
  end.

(** The raw values of the events that were flagged as lines of the diff. *)
Definition diff_values (trace : list event) : list string :=
  omap ev_value (filter (λ e, ev_is_diff e = true) trace).

(** The lines still waiting in the segments of a manager. *)
Definition remaining (m : manager) : list string :=
  concat (seg_lines <$> segments m).

(** [LineComparison.coverage] as the pair (base, head); a line array is
    never an empty list, so a line that is there is truthy. *)
Definition coverage `{Shared} (lc : LineComparison) : option LineType.t * option LineType.t :=
  (match lc_base_line lc with
   | Some base_line => if added lc then None else line_type (coverage_value base_line)
   | None => None
   end,
   match lc_head_line lc with
   | Some head_line => if removed lc then None else line_type (coverage_value head_line)
   | None => None
   end).

(** What every line comparison built during a pass satisfies. *)
Definition line_comparison_ok (lc : LineComparison) : Prop :=
  lc_value lc ≠ None ∧
  added lc = _is_added (lc_value lc) ∧ removed lc = _is_removed (lc_value lc) ∧
  (lc_base_ln lc = None ↔ added lc = true) ∧
  (lc_head_ln lc = None ↔ removed lc = true) ∧
  (added lc = true → lc_base_line lc = None) ∧
  (removed lc = true → lc_head_line lc = None).

(** The event a line comparison was built from. *)
Definition event_of (lc : LineComparison) : event :=
  Event (lc_base_ln lc) (lc_head_ln lc) (lc_value lc) (lc_is_diff lc).

(** What every event of a pass satisfies: a number is missing exactly on
    the side the prefix of the value excludes. *)
Definition event_ok (e : event) : Prop :=
  (ev_base_ln e = None ↔ _is_added (ev_value e) = true) ∧
  (ev_head_ln e = None ↔ _is_removed (ev_value e) = true).

(** An event whose value is neither added nor removed. *)
Definition unchanged_event (e : event) : Prop :=
  _is_added (ev_value e) = false ∧ _is_removed (ev_value e) = false.

(** The events of the lines of a source read one after the other from
    line [k], outside any diff. *)
Fixpoint source_events (k : Z) (ls : list string) : list event :=
  match ls with
  | [] => []
  | l :: ls' => Event (Some k) (Some k) (Some l) false :: source_events (k + 1) ls'
  end.

(** A file comparison whose lines are held back: built over the size
    limit without bypass, and with nothing but [None] stored for [lines]. *)
Definition truncated (fc : FileComparison) : Prop :=
  total_diff_length fc > MAX_DIFF_SIZE ∧ bypass_max_diff fc = false ∧
  (slot_lines fc = None ∨ slot_lines fc = Some None).

(** ** Sample data

    One hunk that removes a line, adds a line and keeps one, in a file of
    two lines on each side. *)
Module Examples.
Definition hunk : segment :=
  Segment (Header (HInt 1) (HInt 2) (HInt 1) (HInt 2)) ["-a"; "+b"; " c"]%string.

Definition m0 : manager := Manager 3 3 [hunk] [] 1 1.

(** A second hunk two lines further down, adding one line before a kept
    one; the base file has 6 lines and the head file 7. *)
Definition second_hunk : segment :=
  Segment (Header (HInt 5) (HInt 1) (HInt 5) (HInt 2)) ["+x"; " y"]%string.

Definition two_hunks : list segment := [hunk; second_hunk].

(** A hunk of one kept line at line 3 of a file of 4 lines. *)
Definition late_hunk : segment :=
  Segment (Header (HInt 3) (HInt 1) (HInt 3) (HInt 1)) [" c"%string].

Definition late : manager := Manager 5 5 [late_hunk] [] 1 1.

(** A source of one line that starts with a minus sign, and no diff. *)
Definition dash_source : list string := ["- item"%string].

Definition covered : report_line := ReportLine (PInt 1) [LineSession 0 (PInt 1)].
Definition missed : report_line := ReportLine (PInt 0) [LineSession 0 (PInt 0)].

Definition two_lines : ReportFile :=
  {| name := "a.py"; _lines := [CellList missed; CellList covered]; eof := 3 |}.

(** A stand-in for the imported functions: coverage 0, 1 and 2 read as
    miss, hit and partial; the text [null] decodes to [None] and the text
    [[1, null, [[0, 1]]]] to the covered line, any other text is taken
    not to be JSON. *)
Definition shared : Shared :=
  {| line_type := λ v,
       match v with
       | PInt 0 => Some LineType.miss
       | PInt 1 => Some LineType.hit
       | PInt 2 => Some LineType.partial
       | _ => None
       end;
     json_loads := λ s,
       if bool_decide (s = "null"%string) then Ok None
       else if bool_decide (s = "[1, null, [[0, 1]]]"%string) then Ok (Some covered)
       else Raise ValueError |}.

(** A report file of the old kind: its cells are texts. *)
Definition old_lines : ReportFile :=
  {| name := "a.py"; _lines := [CellStr "null"; CellStr "[1, null, [[0, 1]]]"; CellStr "{"];
     eof := 4 |}.

(** Line 1 missed in base and hit in head, its text unchanged. *)
Definition base_file : ReportFile :=
  {| name := "a.py"; _lines := [CellList missed]; eof := 2 |}.
Definition head_file : ReportFile :=
  {| name := "a.py"; _lines := [CellList covered]; eof := 2 |}.

Definition changed : FileComparison :=
  {| fc_base_file := Some base_file; fc_head_file := Some head_file;
     fc_diff_data := None; fc_src := [];
     total_diff_length := 0; bypass_max_diff := false;
     should_search_for_changes := None;
     slot_calculated := None; slot_change_summary := None; slot_lines := None;
     passes := 0 |}.

Definition moved : gmap string Z :=
  counter_add "hits" 1 (counter_add "misses" (-1) ∅).

(** [changed] after its summary and its lines were read. *)
Definition changed_read : FileComparison :=
  {| fc_base_file := Some base_file; fc_head_file := Some head_file;
     fc_diff_data := None; fc_src := [];
     total_diff_length := 0; bypass_max_diff := false;
     should_search_for_changes := None;
     slot_calculated := Some (moved, []); slot_change_summary := Some moved;
     slot_lines := Some (Some []);
     passes := 1 |}.

Definition events : list event :=
  [ Event (Some 1) None (Some "-a"%string) true;
    Event None (Some 1) (Some "+b"%string) true;
    Event (Some 2) (Some 2) (Some " c"%string) true ].
(** Pull request 7: a first comparison on an empty cache, the cache after
    it wrote two names, and a fresh comparison on that cache. *)
Definition empty_redis : Redis := {| connected := true; store := ∅ |}.
Definition empty_report : Report := {| report_files := []; file_reports := ∅ |}.

Definition first : Comparison :=
  {| pullid := Some 7; service := "github"; username := "codecov"; repo_name := "api";
     head_report := empty_report; base_report := None; diff_files := ∅;
     get_source := λ _, []; _files_with_changes := None |}.

Definition written : Redis :=
  {| connected := true;
     store := {[ cache_key "github" "codecov" "api" 7 := JList ["a.py"; "b.py"]%string ]} |}.

Definition fresh : Comparison :=
  {| pullid := Some 7; service := "github"; username := "codecov"; repo_name := "api";
     head_report := empty_report; base_report := None; diff_files := ∅;
     get_source := λ _, [];
     _files_with_changes := Some ["a.py"; "b.py"]%string |}.

(** A comparison for pull request 7 whose only file changed coverage, on
    an empty cache, and what two calls of [next] leave behind. *)
Definition one_file (f : ReportFile) : Report :=
  {| report_files := ["a.py"%string]; file_reports := {[ "a.py"%string := f ]} |}.

Definition cmp : Comparison :=
  {| pullid := Some 7; service := "github"; username := "codecov"; repo_name := "api";
     head_report := one_file head_file; base_report := Some (one_file base_file);
     diff_files := ∅; get_source := λ _, []; _files_with_changes := None |}.

Definition yielded : FileComparison :=
  {| fc_base_file := Some base_file; fc_head_file := Some head_file;
     fc_diff_data := None; fc_src := [];
     total_diff_length := 0; bypass_max_diff := false;
     should_search_for_changes := None;
     slot_calculated := Some (moved, []); slot_change_summary := Some moved;
     slot_lines := None;
     passes := 1 |}.

Definition cache_after : Redis :=
  {| connected := true;
     store := {[ cache_key "github" "codecov" "api" 7 := JList ["a.py"%string] ]} |}.

Definition exhausted : files_generator :=
  {| pending := []; files_with_changes := ["a.py"%string]; returned := true |}.

(** A file whose diff is [hunk], with the two-line report on both sides,
    and what the pass over it returns. *)
Definition with_diff : FileComparison :=
  {| fc_base_file := Some two_lines; fc_head_file := Some two_lines;
     fc_diff_data := Some (DiffData [hunk] None); fc_src := [];
     total_diff_length := 3; bypass_max_diff := false;
     should_search_for_changes := None;
     slot_calculated := None; slot_change_summary := None; slot_lines := None;
     passes := 0 |}.

Definition pass_result
  : res (gmap string Z * list LineComparison * option (list segment)) :=
  Eval vm_compute in @calculate shared 3 with_diff.

Definition pass_summary : gmap string Z :=
  match pass_result with Ok (s, _, _) => s | _ => ∅ end.

Definition pass_lines : list LineComparison :=
  match pass_result with Ok (_, l, _) => l | _ => [] end.

(** A comparison without pull request whose only file has the diff
    [hunk], and what the first call of [next] returns. *)
Definition two_line_report : Report :=
  {| report_files := ["a.py"%string]; file_reports := {[ "a.py"%string := two_lines ]} |}.

Definition cmp_diff : Comparison :=
  {| pullid := None; service := "github"; username := "codecov"; repo_name := "api";
     head_report := two_line_report; base_report := Some two_line_report;
     diff_files := {[ "a.py"%string := DiffData [hunk] None ]};
     get_source := λ _, []; _files_with_changes := None |}.

Definition next_result
  : res (option FileComparison * Comparison * Redis * files_generator) :=
  Eval vm_compute in @next shared 3 cmp_diff empty_redis (files cmp_diff).

Definition next_yielded : option FileComparison :=
  match next_result with Ok (y, _, _, _) => y | _ => None end.

Definition next_comparison : Comparison :=
  match next_result with Ok (_, c, _, _) => c | _ => cmp_diff end.

Definition next_generator : files_generator :=
  match next_result with Ok (_, _, _, g) => g | _ => files cmp_diff end.

(** Redis down, and the generator of [cmp] after its only file. *)
Definition down : Redis := {| connected := false; store := ∅ |}.

(** The cache holding the document [null] for pull request 7. *)
Definition null_cached : Redis :=
  {| connected := true; store := {[ cache_key "github" "codecov" "api" 7 := JNull ]} |}.

(** A comparison without pull request. *)
Definition no_pull : Comparison :=
  {| pullid := None; service := "github"; username := "codecov"; repo_name := "api";
     head_report := one_file head_file; base_report := Some (one_file base_file);
     diff_files := ∅; get_source := λ _, []; _files_with_changes := None |}.

Definition all_yielded : files_generator :=
  {| pending := []; files_with_changes := ["a.py"%string]; returned := false |}.

(** A diff of 171 kept lines for a file without reports, the file
    comparison built from it, and that object after its summary and its
    lines were read. *)
Definition big_diff : diff_data :=
  DiffData [Segment (Header (HInt 1) (HInt 171) (HInt 1) (HInt 171))
              (replicate 171 " x"%string)] None.

Definition big : FileComparison :=
  {| fc_base_file := None; fc_head_file := None;
     fc_diff_data := Some big_diff; fc_src := [];
     total_diff_length := 171; bypass_max_diff := false;
     should_search_for_changes := None;
     slot_calculated := None; slot_change_summary := None; slot_lines := None;
     passes := 0 |}.

Definition big_read_result : res FileComparison :=
  Eval vm_compute in @read_all shared 171 [GetChangeSummary; GetLines] big.

Definition big_read : FileComparison :=
  match big_read_result with
  | Ok fc => fc
  | _ => big
  end.
End Examples.

(** * Properties *)

(** ** The error monad *)

Lemma bind_Ok {A B} (m : res A) (f : A → res B) (b : B) :
  m ≫= f = Ok b → ∃ a, m = Ok a ∧ f a = Ok b.
Proof. destruct m as [a| |]; simpl; intros E; try discriminate. by exists a. Qed.

Tactic Notation "inv_bind" hyp(H) "as" simple_intropattern(a) ident(Ha) :=
  apply bind_Ok in H as (a & Ha & H).

(** ** Prefixes *)

Lemma first_char_is_spec c value :
  first_char_is c value = true ↔ starts_with c value.
Proof.
  unfold starts_with. destruct value as [[|c' s]|]; simpl.
  - split; [done | by intros [? ?]].
  - rewrite bool_decide_eq_true. split.
    + intros ->. by eexists.
    + by intros [? [= -> _]].
  - split; [done | by intros [? ?]].
Qed.

Lemma first_char_is_false c value :
  first_char_is c value = false ↔ ¬ starts_with c value.
Proof. rewrite <- first_char_is_spec. by destruct (first_char_is c value). Qed.

Lemma added_not_removed value : _is_added value = true → _is_removed value = false.
Proof.
  unfold _is_added, _is_removed.
  destruct value as [[|c s]|]; simpl; try done.
  rewrite bool_decide_eq_true. intros ->. done.
Qed.

(** ** One turn of the loop, seen by the recording visitor *)

Lemma pop_line_pointers m line m1 :
  pop_line m = Ok (line, m1) → base_ln m1 = base_ln m ∧ head_ln m1 = head_ln m.
Proof.
  unfold pop_line. intros E. inv_bind E as [|] Hd.
  - destruct (segments m) as [|s rest]; [done|].
    destruct (seg_lines s); [done|]. by injection E as <- <-.
  - destruct (bool_decide (src m ≠ [])).
    + inv_bind E as l Hl. by injection E as <- <-.
    + by injection E as <- <-.
Qed.

Lemma retire_pointers m : base_ln (retire m) = base_ln m ∧ head_ln (retire m) = head_ln m.
Proof.
  unfold retire. destruct (segments m) as [|s rest]; [done|]. by destruct (seg_lines s).
Qed.

Lemma iteration_recorder m (evs : list event) m' evs' :
  iteration m evs = Ok (m', evs') →
  ∃ line m1 d,
    pop_line m = Ok (line, m1) ∧ traversing_diff m1 = Ok d ∧
    m' = retire (advance line m1) ∧
    evs' = evs ++ [Event (if _is_added line then None else Some (base_ln m))
                         (if _is_removed line then None else Some (head_ln m))
                         line d].
Proof.
  unfold iteration. intros E. inv_bind E as [line m1] Hpop.
  inv_bind E as v Hv. injection E as <- <-.
  unfold visit in Hv. inv_bind Hv as d Hd.
  destruct (pop_line_pointers _ _ _ Hpop) as [Eb Eh].
  exists line, m1, d. repeat split; try done.
  unfold call, recorder in Hv. injection Hv as <-. by rewrite Eb, Eh.
Qed.

Lemma advance_pointers line m :
  base_ln (advance line m) = base_ln m + (if _is_added line then 0 else 1) ∧
  head_ln (advance line m) =
    head_ln m + (if _is_added line then 1 else if _is_removed line then 0 else 1).
Proof.
  unfold advance. destruct (_is_added line); simpl; [lia|].
  destruct (_is_removed line); simpl; lia.
Qed.

Lemma iteration_classified m (evs : list event) m' evs' :
  iteration m evs = Ok (m', evs') →
  ∃ e, evs' = evs ++ [e] ∧
    classified (base_ln m) (head_ln m) [e] (base_ln m') (head_ln m').
Proof.
  intros E. apply iteration_recorder in E as (line & m1 & d & Hpop & _ & -> & ->).
  destruct (pop_line_pointers _ _ _ Hpop) as [Eb Eh].
  destruct (retire_pointers (advance line m1)) as [-> ->].
  destruct (advance_pointers line m1) as [-> ->]. rewrite Eb, Eh.
  eexists; split; [done|].
  destruct (_is_added line) eqn:Ha.
  - rewrite Z.add_0_r. apply classified_added; simpl; try done.
    + by apply first_char_is_spec.
    + by rewrite (added_not_removed _ Ha).
    + constructor.
  - destruct (_is_removed line) eqn:Hr.
    + rewrite Z.add_0_r. apply classified_removed; simpl; try done.
      * by apply first_char_is_spec.
      * constructor.
    + apply classified_unchanged; simpl; try done.
      * by apply first_char_is_false.
      * by apply first_char_is_false.
      * constructor.
Qed.

Lemma classified_cons b h e b1 h1 evs b' h' :
  classified b h [e] b1 h1 → classified b1 h1 evs b' h' →
  classified b h (e :: evs) b' h'.
Proof.
  intros H1 H2. inversion H1; subst;
    match goal with X : classified _ _ [] _ _ |- _ => inversion X; subst end.
  - by apply classified_removed.
  - by apply classified_added.
  - by apply classified_unchanged.
Qed.

(** C1: in a pass of [apply], every event and the pointer advance after it
    follow the prefix of the raw value: for "-" the event has no head
    number and only [base_ln] moves, by 1; for "+" it has no base number and
    only [head_ln] moves, by 1; for any other value (the empty text and the
    missing line included) it carries both numbers and both move by 1. *)
Theorem apply_classifies_by_prefix (fuel : nat) (m m' : manager) (evs evs' : list event) :
  apply fuel m evs = Ok (m', evs') →
  ∃ trace, evs' = evs ++ trace ∧
    classified (base_ln m) (head_ln m) trace (base_ln m') (head_ln m').
Proof.
  revert m evs. induction fuel as [|fuel IH]; intros m evs; simpl.
  - destruct (traverse_finished m); [|done].
    intros [= <- <-]. exists []. rewrite app_nil_r. split; [done | constructor].
  - destruct (traverse_finished m).
    + intros [= <- <-]. exists []. rewrite app_nil_r. split; [done | constructor].
    + intros E. inv_bind E as [m1 evs1] Hit.
      apply iteration_classified in Hit as (e & -> & He).
      apply IH in E as (trace & -> & Htr).
      exists (e :: trace). rewrite <- app_assoc. split; [done|].
      by eapply classified_cons.
Qed.

Lemma apply_classifies_by_prefix_witness :
  ∃ trace, Examples.events = [] ++ trace ∧ classified 1 1 trace 3 3.
Proof.
  apply (apply_classifies_by_prefix 3 Examples.m0 (Manager 3 3 [] [] 3 3) [] Examples.events).
  vm_compute. reflexivity.
Defined.

(** ** A file without diff and without source *)

Lemma apply_plain (n : nat) : ∀ (fuel : nat) (he be k : Z) (evs : list event),
  n = Z.to_nat (Z.max be he - k) → (n ≤ fuel)%nat →
  apply fuel (Manager he be [] [] k k) evs =
    Ok (Manager he be [] [] (Z.max k (Z.max be he)) (Z.max k (Z.max be he)),
        evs ++ (plain_event <$> seqZ k (Z.max be he - k))).
Proof.
  induction n as [|n IH]; intros fuel he be k evs Hn Hfuel.
  - assert (Z.max be he ≤ k) as Hk by lia.
    assert (traverse_finished (Manager he be [] [] k k) = true) as Hfin.
    { unfold traverse_finished; simpl.
      rewrite andb_true_iff, !bool_decide_eq_true. lia. }
    destruct fuel; simpl; rewrite Hfin.
    all: rewrite (seqZ_nil k) by lia; simpl; rewrite app_nil_r.
    all: by rewrite Z.max_l by lia.
  - assert (k < Z.max be he) as Hk by lia.
    assert (traverse_finished (Manager he be [] [] k k) = false) as Hfin.
    { unfold traverse_finished; simpl.
      rewrite andb_false_iff, !bool_decide_eq_false. lia. }
    destruct fuel as [|fuel]; [lia|]. simpl. rewrite Hfin.
    unfold iteration, pop_line, visit; simpl.
    unfold advance, retire, set_pointers; simpl.
    rewrite (IH fuel he be (k + 1)) by lia.
    rewrite (seqZ_cons k) by lia. simpl.
    rewrite <- app_assoc. simpl.
    replace (Z.succ k) with (k + 1) by lia.
    replace (Z.pred (Z.max be he - k)) with (Z.max be he - (k + 1)) by lia.
    by rewrite (Z.max_r k), (Z.max_r (k + 1)) by lia.
Qed.

(** C7: with no segment, no source and both end markers at least 1, [apply]
    makes exactly [max(base_file_eof, head_file_eof) - 1] visits, and the
    k-th visit carries [base_ln = head_ln = k]. *)
Theorem apply_without_diff_visits (head_eof base_eof : Z) :
  1 ≤ base_eof → 1 ≤ head_eof →
  ∃ (m m' : manager) (evs : list event),
    init head_eof base_eof [] [] = Ok m ∧
    (∀ fuel, (Z.to_nat (Z.max base_eof head_eof - 1) ≤ fuel)%nat →
       apply fuel m ([] : list event) = Ok (m', evs)) ∧
    evs = plain_event <$> seqZ 1 (Z.max base_eof head_eof - 1) ∧
    Z.of_nat (length evs) = Z.max base_eof head_eof - 1 ∧
    Forall (λ e, ev_base_ln e = ev_head_ln e ∧ ev_base_ln e ≠ None) evs.
Proof.
  intros Hb Hh.
  eexists _, _, _. split; [reflexivity|]. split; [|split; [reflexivity|split]].
  - intros fuel Hfuel. by rewrite (apply_plain _ fuel head_eof base_eof 1 [] eq_refl Hfuel).
  - rewrite length_fmap, length_seqZ. lia.
  - apply Forall_fmap, Forall_forall. intros k _. by simpl.
Qed.

Lemma apply_without_diff_visits_witness :
  ∃ (m m' : manager) (evs : list event),
    init 3 4 [] [] = Ok m ∧
    (∀ fuel, (Z.to_nat (Z.max 4 3 - 1) ≤ fuel)%nat →
       apply fuel m ([] : list event) = Ok (m', evs)) ∧
    evs = plain_event <$> seqZ 1 (Z.max 4 3 - 1) ∧
    Z.of_nat (length evs) = Z.max 4 3 - 1 ∧
    Forall (λ e, ev_base_ln e = ev_head_ln e ∧ ev_base_ln e ≠ None) evs.
Proof. apply (apply_without_diff_visits 3 4); lia. Defined.

(** ** Looking up a coverage line *)

Lemma py_index_above {A} (l : list A) (i : Z) :
  Z.of_nat (length l) ≤ i → py_index l i = Raise IndexError.
Proof.
  intros Hi. unfold py_index.
  rewrite (bool_decide_eq_false_2 (i < 0)) by lia.
  rewrite (bool_decide_eq_true_2 (0 ≤ i)) by lia.
  rewrite (lookup_ge_None_2 l (Z.to_nat i)); [done | lia].
Qed.

Lemma py_index_in_range {A} (l : list A) (i : Z) :
  0 ≤ i → py_index l i = from_option Ok (Raise IndexError) (l !! Z.to_nat i).
Proof.
  intros Hi. unfold py_index.
  rewrite (bool_decide_eq_false_2 (i < 0)) by lia.
  rewrite (bool_decide_eq_true_2 (0 ≤ i)) by lia.
  by destruct (l !! Z.to_nat i).
Qed.

Lemma py_index_last {A} (l : list A) (x : A) : py_index (l ++ [x]) (-1) = Ok x.
Proof.
  unfold py_index. rewrite (bool_decide_eq_true_2 (-1 < 0)) by lia.
  rewrite length_app. simpl length. rewrite bool_decide_eq_true_2 by lia.
  replace (Z.to_nat (-1 + Z.of_nat (length l + 1))) with (length l) by lia.
  by rewrite list_lookup_middle.
Qed.

(** Past the end of the file the lookup gives no line. *)
Lemma _get_line_past_the_end `{Shared} (rf : ReportFile) (ln : Z) :
  Z.of_nat (length (_lines rf)) < ln → _get_line (Some rf) (Some ln) = Ok None.
Proof. intros Hln. unfold _get_line. by rewrite py_index_above by lia. Qed.

(** Line number 0 reads index -1, which is the last line of the file. *)
Lemma _get_line_zero `{Shared} (name : string) (cells : list cell) (l : report_line) (e : Z) :
  _get_line (Some {| name := name; _lines := cells ++ [CellList l]; eof := e |}) (Some 0)
  = Ok (Some l).
Proof. unfold _get_line. simpl. by rewrite py_index_last. Qed.

(** C6, at line number 0 of a file of two lines: the lookup returns the
    coverage of line 2 instead of no line. *)
Theorem _get_line_zero_returns_last_line `{Shared} :
  _get_line (Some Examples.two_lines) (Some 0) = Ok (Some Examples.covered).
Proof. apply (_get_line_zero "a.py" [CellList Examples.missed]). Qed.

(** ** Sessions of a line comparison *)

Lemma reduce_hits (l : list pyval) : ∀ (acc : pyval) (a : Z),
  Forall (λ v, py_eq_int v 1 = true) l → l ≠ [] →
  py_eq_int acc a = true →
  reduce_from py_add acc l = Ok (PInt (a + Z.of_nat (length l))).
Proof.
  induction l as [|v l IH]; intros acc a Hall Hne Hacc; [done|].
  apply Forall_cons in Hall as [Hv Hall]. simpl.
  assert (py_add acc v = Ok (PInt (a + 1))) as ->.
  { destruct acc as [|[]|z|], v as [|[]|z'|]; simpl in *;
      try discriminate; repeat case_bool_decide; try discriminate; subst; done. }
  simpl. destruct l as [|v' l'].
  - simpl. assert (a + 1 = a + Z.of_nat 1) as <- by lia. done.
  - rewrite (IH (PInt (a + 1)) (a + 1)); try done.
    + simpl length. do 2 f_equal. lia.
    + simpl. by rewrite bool_decide_eq_true.
Qed.

(** C10: with a head line, [sessions] is the number of its sessions whose
    coverage equals 1 (as [==] decides it), and [None] when there is none;
    without a head line it is [None]. The number is an int, except that a
    single matching session whose coverage is [True] is returned as it is. *)
Theorem sessions_counts_hits (lc : LineComparison) :
  match lc_head_line lc with
  | None => sessions lc = Ok None
  | Some head_line =>
      let n := Z.of_nat (length (hit_sessions head_line)) in
      if bool_decide (n = 0) then sessions lc = Ok None
      else ∃ v, sessions lc = Ok (Some v) ∧ py_eq_int v n = true ∧
                (v = PInt n ∨ (n = 1 ∧ v = PBool true))
  end.
Proof.
  unfold sessions. destruct (lc_head_line lc) as [hl|]; [|done].
  fold (hit_sessions hl). simpl.
  assert (Forall (λ v, py_eq_int v 1 = true) (s_coverage <$> hit_sessions hl)) as Hall.
  { apply Forall_fmap, Forall_forall. intros s Hs.
    by apply list_elem_of_filter in Hs as [Hs _]. }
  destruct (hit_sessions hl) as [|s ss]; [done|].
  rewrite bool_decide_eq_false_2 by (simpl; lia).
  simpl in *. apply Forall_cons in Hall as [Hs Hall].
  destruct ss as [|s' ss'].
  - simpl. exists (s_coverage s). split; [done|]. split; [done|].
    destruct (s_coverage s) as [|[]|z|]; simpl in *; try discriminate.
    + by right.
    + left. case_bool_decide; [by subst | done].
  - rewrite (reduce_hits _ (s_coverage s) 1); try done.
    eexists. split; [done|].
    replace (Z.of_nat (S (length (s' :: ss')))) with (1 + Z.of_nat (length (s_coverage <$> s' :: ss'))).
    + split; [simpl; by rewrite bool_decide_eq_true | by left].
    + rewrite length_fmap. lia.
Qed.

(** ** The change summary *)

Lemma counter_get_add k d c k' :
  counter_get (counter_add k d c) k' = counter_get c k' + (if decide (k = k') then d else 0).
Proof.
  unfold counter_add, counter_get at 1. rewrite lookup_insert.
  destruct (decide (k = k')) as [->|]; simpl; [done|].
  fold (counter_get c k'). lia.
Qed.

Lemma category_sum_add k d c :
  k ∈ categories → category_sum (counter_add k d c) = category_sum c + d.
Proof.
  intros Hk. unfold category_sum. rewrite !counter_get_add.
  unfold categories in Hk. set_unfold.
  destruct Hk as [->|[->|[->|[]]]]; repeat case_decide; try done; lia.
Qed.

Lemma coverage_type_map_category t k : coverage_type_map t = Ok k → k ∈ categories.
Proof.
  unfold categories. destruct t as [[]|]; simpl; intros [= <-]; set_solver.
Qed.

Lemma coverage_type_map_inj t1 t2 k :
  coverage_type_map t1 = Ok k → coverage_type_map t2 = Ok k → t1 = t2.
Proof. destruct t1 as [[]|], t2 as [[]|]; simpl; intros [= <-]; by intros [=]. Qed.

Section Summary.
Context `{Shared}.

(** A call of the change-summary visitor leaves the summary alone or
    moves one unit from one category to another. *)
Lemma change_summary_call self base head value is_diff self' :
  call self base head value is_diff = Ok self' →
  summary self' = summary self ∨
  ∃ kb kh, kb ∈ categories ∧ kh ∈ categories ∧ kb ≠ kh ∧
    summary self' = counter_add kh 1 (counter_add kb (-1) (summary self)).
Proof.
  unfold call, change_summary_visitor.
  destruct (_ || _); [intros [= <-]; by left|].
  intros E. inv_bind E as [base_line head_line] Hlines.
  destruct base_line as [bl|], head_line as [hl|]; try (injection E as <-; by left).
  case_bool_decide as Hty; [injection E as <-; by left|].
  inv_bind E as s Hs. injection E as <-. simpl. right.
  unfold _update_summary in Hs.
  inv_bind Hs as kb Hkb. inv_bind Hs as kh Hkh. injection Hs as <-.
  exists kb, kh. repeat split; eauto using coverage_type_map_category.
  intros ->. apply Hty. eauto using coverage_type_map_inj.
Qed.

Lemma change_summary_call_sum self base head value is_diff self' :
  call self base head value is_diff = Ok self' →
  category_sum (summary self') = category_sum (summary self).
Proof.
  intros E. apply change_summary_call in E as [->|(kb & kh & Hb & Hh & _ & ->)]; [done|].
  rewrite !category_sum_add by done. lia.
Qed.
End Summary.

(** What every call of the visitors preserves holds after [apply]. *)
Lemma apply_invariant {V} `{!Visitor V} (P : V → Prop) :
  (∀ v base head value is_diff v', call v base head value is_diff = Ok v' → P v → P v') →
  ∀ fuel m v m' v', apply fuel m v = Ok (m', v') → P v → P v'.
Proof.
  intros Hcall fuel. induction fuel as [|fuel IH]; intros m v m' v'; simpl.
  - destruct (traverse_finished m); [|done]. by intros [= <- <-].
  - destruct (traverse_finished m); [by intros [= <- <-]|].
    intros E Pv. inv_bind E as [m1 v1] Hit.
    apply IH in E; [done|].
    unfold iteration in Hit. inv_bind Hit as [line m2] Hpop.
    inv_bind Hit as v2 Hv. injection Hit as <- <-.
    unfold visit in Hv. inv_bind Hv as d Hd. eauto.
Qed.

(** C3: a call of the change-summary visitor either leaves the summary as
    it is or takes 1 from one category and gives 1 to a different one; and
    in the summary that a pass over a file produces, the values under
    "hits", "misses" and "partials" sum to 0. *)
Theorem change_summary_zero_sum `{Shared} :
  (∀ self base head value is_diff self',
     call self base head value is_diff = Ok self' →
     summary self' = summary self ∨
     ∃ kb kh, kb ∈ categories ∧ kh ∈ categories ∧ kb ≠ kh ∧
       summary self' = counter_add kh 1 (counter_add kb (-1) (summary self))) ∧
  (∀ fuel fc s l segs,
     calculate fuel fc = Ok (s, l, segs) →
     counter_get s "hits" + counter_get s "misses" + counter_get s "partials" = 0).
Proof.
  split; [apply change_summary_call|].
  intros fuel fc s l segs. unfold calculate.
  destruct (runs_pass fc); [|by intros [= <- _ _]].
  intros E. inv_bind E as m Hm. inv_bind E as [m' [csv clv]] Happly.
  injection E as <- _ _.
  change (category_sum (summary csv) = 0).
  eapply (apply_invariant (λ v, category_sum (summary v.1) = 0)) in Happly; [done| |done].
  intros [v1 v2] base head value is_diff [v1' v2'] Hcall Hv. simpl in *.
  unfold call, pair_visitor in Hcall. simpl in Hcall.
  inv_bind Hcall as a Ha. inv_bind Hcall as b Hb. injection Hcall as <- <-.
  by rewrite (change_summary_call_sum _ _ _ _ _ _ Ha).
Qed.

Lemma change_summary_zero_sum_witness :
  (∃ kb kh, kb ∈ categories ∧ kh ∈ categories ∧ kb ≠ kh ∧
     Examples.moved = counter_add kh 1 (counter_add kb (-1) ∅)) ∧
  counter_get Examples.moved "hits" + counter_get Examples.moved "misses"
    + counter_get Examples.moved "partials" = 0.
Proof.
  destruct (@change_summary_zero_sum Examples.shared) as [Hcall Hsum]. split.
  - destruct (Hcall
      {| csv_base_file := Some Examples.base_file;
         csv_head_file := Some Examples.head_file; summary := ∅ |}
      (Some 1) (Some 1) None false
      {| csv_base_file := Some Examples.base_file;
         csv_head_file := Some Examples.head_file; summary := Examples.moved |})
      as [Heq|Hmove].
    + vm_compute. reflexivity.
    + exfalso. simpl in Heq. apply (f_equal (λ s, counter_get s "hits")) in Heq.
      vm_compute in Heq. discriminate.
    + exact Hmove.
  - apply (Hsum 1%nat Examples.changed Examples.moved [] (Some [])).
    vm_compute. reflexivity.
Defined.

(** ** Building a file comparison *)

Lemma reduce_from_sum (l : list segment) (acc : Z) :
  reduce_from (λ a b, Ok (a + b)) acc
    ((λ segment, Z.of_nat (length (seg_lines segment))) <$> l)
  = Ok (acc + Z.of_nat (sum_list_with (λ segment, length (seg_lines segment)) l)).
Proof.
  revert acc. induction l as [|s l IH]; intros acc; simpl.
  - f_equal. lia.
  - rewrite IH. f_equal. lia.
Qed.

Lemma new_FileComparison_ok base_file head_file diff source bypass hint :
  new_FileComparison base_file head_file diff source bypass hint =
  Ok {| fc_base_file := base_file; fc_head_file := head_file;
        fc_diff_data := diff; fc_src := source;
        total_diff_length := diff_line_count diff; bypass_max_diff := bypass;
        should_search_for_changes := hint;
        slot_calculated := None; slot_change_summary := None; slot_lines := None;
        passes := 0 |}.
Proof.
  unfold new_FileComparison, diff_line_count.
  destruct diff as [[segs before]|]; simpl; [|done].
  destruct segs as [|s segs]; simpl; [done|].
  rewrite reduce_from_sum. simpl. do 3 f_equal. lia.
Qed.

(** C4: a file comparison built from a diff of more than 170 raw lines
    without bypass answers [lines] with [None], without raising and
    without running the pass; in every other case [lines] is the list the
    pass builds. [change_summary] is the summary the pass builds in both
    cases, the same as for the object built with bypass. *)
Theorem lines_truncated_summary_kept `{Shared} (fuel : nat)
    (base_file head_file : option ReportFile) (diff : option diff_data)
    (source : list string) (bypass : bool) (hint : option bool) :
  ∃ fc fc_bypass,
    new_FileComparison base_file head_file diff source bypass hint = Ok fc ∧
    new_FileComparison base_file head_file diff source true hint = Ok fc_bypass ∧
    total_diff_length fc = diff_line_count diff ∧
    (if bool_decide (170 < diff_line_count diff) && negb bypass
     then ∀ fuel', lines fuel' fc = Ok (None, set_lines None fc)
     else fst <$> lines fuel fc = (λ r, Some r.1.2) <$> calculate fuel fc) ∧
    fst <$> change_summary fuel fc = (λ r, r.1.1) <$> calculate fuel fc ∧
    fst <$> change_summary fuel fc = fst <$> change_summary fuel fc_bypass ∧
    fst <$> lines fuel fc_bypass = (λ r, Some r.1.2) <$> calculate fuel fc.
Proof.
  eexists _, _. rewrite !new_FileComparison_ok.
  split; [done|]. split; [done|]. split; [done|].
  split; [|split; [|split]].
  - unfold lines, MAX_DIFF_SIZE. simpl.
    destruct (bool_decide (170 < diff_line_count diff)) eqn:Hn.
    + apply bool_decide_eq_true in Hn.
      rewrite (bool_decide_eq_true_2 (diff_line_count diff > 170)) by lia.
      destruct bypass; simpl; [|done].
      unfold _calculated_changes_and_lines; simpl.
      by destruct (calculate fuel _) as [[[s l] segs]| |].
    + apply bool_decide_eq_false in Hn.
      rewrite (bool_decide_eq_false_2 (diff_line_count diff > 170)) by lia. simpl.
      unfold _calculated_changes_and_lines; simpl.
      by destruct (calculate fuel _) as [[[s l] segs]| |].
  - unfold change_summary, _calculated_changes_and_lines; simpl.
    by destruct (calculate fuel _) as [[[s l] segs]| |].
  - unfold change_summary, _calculated_changes_and_lines, calculate, runs_pass; simpl.
    destruct (_ || _); [|done].
    destruct (init _ _ _ _) as [m| |]; simpl; try done.
    by destruct (apply fuel m _) as [[m' [v1 v2]]| |].
  - unfold lines, _calculated_changes_and_lines, calculate, runs_pass; simpl.
    rewrite andb_false_r.
    destruct (_ || _); [|done].
    destruct (init _ _ _ _) as [m| |]; simpl; try done.
    by destruct (apply fuel m _) as [[m' [v1 v2]]| |].
Qed.

(** ** Memoisation of the pass *)

Lemma runs_pass_skipped `{Shared} fc : runs_pass fc = negb (skipped fc).
Proof.
  unfold runs_pass, skipped, has_diff.
  by destruct (bool_decide (fc_diff_data fc ≠ None)), (bool_decide (_ = Some false)).
Qed.

Lemma skipped_set_calculated r segs ran fc :
  skipped (set_calculated r segs ran fc) = skipped fc.
Proof.
  unfold skipped, has_diff. simpl.
  destruct segs as [l|], (fc_diff_data fc) as [d|]; simpl; try done.
Qed.

Lemma calculate_skipped `{Shared} fuel fc s l segs :
  calculate fuel fc = Ok (s, l, segs) → skipped fc = true → (s, l) = (∅, []).
Proof.
  unfold calculate. rewrite runs_pass_skipped. intros E Hsk. rewrite Hsk in E.
  simpl in E. by injection E as <- <- _.
Qed.

Lemma calculated_memo `{Shared} fuel fc s l fc' :
  memo_ok fc → _calculated_changes_and_lines fuel fc = Ok (s, l, fc') →
  memo_ok fc' ∧ skipped fc' = skipped fc ∧
  slot_calculated fc' = Some (s, l) ∧
  slot_change_summary fc' = slot_change_summary fc.
Proof.
  intros Hok. unfold _calculated_changes_and_lines.
  destruct (slot_calculated fc) as [[s0 l0]|] eqn:Hslot.
  - by intros [= <- <- <-].
  - destruct Hok as (Hp & Hr & Hs). rewrite Hslot in Hp.
    intros E. inv_bind E as [[s1 l1] segs] Hcalc. injection E as <- <- <-.
    repeat split; simpl; try done.
    + rewrite skipped_set_calculated, runs_pass_skipped, Hp.
      by destruct (skipped fc).
    + intros r [= <-]. rewrite skipped_set_calculated. eauto using calculate_skipped.
    + intros s Es. apply Hs in Es as [? ?]. congruence.
    + apply skipped_set_calculated.
Qed.

Lemma read_memo `{Shared} fuel a fc fc' :
  memo_ok fc → read fuel a fc = Ok fc' →
  memo_ok fc' ∧ skipped fc' = skipped fc ∧
  (is_Some (slot_change_summary fc) ∨ a = GetChangeSummary →
   is_Some (slot_change_summary fc')).
Proof.
  intros Hok. destruct a; simpl.
  - destruct (_calculated_changes_and_lines fuel fc) as [[[s l] fc1]| |] eqn:E;
      simpl; intros [= <-].
    destruct (calculated_memo _ _ _ _ _ Hok E) as (? & ? & ? & Hcs).
    split; [done|]. split; [done|]. rewrite Hcs. by intros [?|?].
  - unfold change_summary. destruct (slot_change_summary fc) as [s0|] eqn:Hslot.
    + simpl. intros [= <-]. split; [done|]. split; [done|]. rewrite Hslot. eauto.
    + destruct (_calculated_changes_and_lines fuel fc) as [[[s l] fc1]| |] eqn:E;
        simpl; intros [= <-].
      destruct (calculated_memo _ _ _ _ _ Hok E) as ((Hp & Hr & Hs) & Hsk & Hc & Hcs).
      split; [|split; [done|by eauto]].
      split; [done|]. split; [done|]. simpl. intros s' [= <-]. eauto.
  - unfold lines. destruct (slot_lines fc) as [l0|].
    { simpl. intros [= <-]. split; [done|]. split; [done|]. by intros [?|?]. }
    destruct (_ && _).
    { simpl. intros [= <-]. split; [exact Hok|]. split; [done|]. by intros [?|?]. }
    destruct (_calculated_changes_and_lines fuel fc) as [[[s l] fc1]| |] eqn:E;
      simpl; intros [= <-].
    destruct (calculated_memo _ _ _ _ _ Hok E) as (Hok1 & Hsk & Hc & Hcs).
    split; [exact Hok1|]. split; [done|]. simpl. rewrite Hcs. by intros [?|?].
Qed.

Lemma read_all_memo `{Shared} fuel accesses : ∀ fc fc',
  memo_ok fc → read_all fuel accesses fc = Ok fc' →
  memo_ok fc' ∧ skipped fc' = skipped fc ∧
  (is_Some (slot_change_summary fc) ∨ GetChangeSummary ∈ accesses →
   is_Some (slot_change_summary fc')).
Proof.
  induction accesses as [|a accesses IH]; intros fc fc' Hok; simpl.
  - intros [= <-]. split; [done|]. split; [done|].
    intros [?|Hin]; [done|]. by apply elem_of_nil in Hin.
  - intros E. inv_bind E as fc1 Hread.
    destruct (read_memo _ _ _ _ Hok Hread) as (Hok1 & Hsk1 & Hcs1).
    destruct (IH _ _ Hok1 E) as (Hok' & Hsk' & Hcs').
    split; [done|]. split; [congruence|].
    intros [?|Hin]; apply Hcs'; [left; apply Hcs1; by left|].
    apply elem_of_cons in Hin as [<-|?]; [left; apply Hcs1; by right | by right].
Qed.

(** C5: for a file comparison as [__init__] builds it and any sequence of
    reads of its cached properties, the pass is left out exactly when there
    is no diff and the hint is [False], and then both outputs are empty;
    otherwise the pass has run once as soon as the calculation was asked
    for and never again, and a later read of [change_summary] returns the
    stored value without running anything. *)
Theorem pass_skipped_or_run_once `{Shared} (fuel : nat) (accesses : list access)
    (base_file head_file : option ReportFile) (diff : option diff_data)
    (source : list string) (bypass : bool) (hint : option bool)
    (fc fc' : FileComparison) :
  new_FileComparison base_file head_file diff source bypass hint = Ok fc →
  read_all fuel accesses fc = Ok fc' →
  skipped fc = bool_decide (diff = None) && bool_decide (hint = Some false) ∧
  (skipped fc = true →
     passes fc' = 0%nat ∧ ∀ r, slot_calculated fc' = Some r → r = (∅, [])) ∧
  (skipped fc = false →
     passes fc' = match slot_calculated fc' with Some _ => 1%nat | None => 0%nat end) ∧
  (GetChangeSummary ∈ accesses →
     ∃ s l, slot_calculated fc' = Some (s, l) ∧
            ∀ fuel', change_summary fuel' fc' = Ok (s, fc')).
Proof.
  rewrite new_FileComparison_ok. intros [= <-] Hread.
  apply read_all_memo in Hread as ((Hp & Hr & Hs) & Hsk & Hcs).
  2:{ repeat split; simpl; try done. }
  split; [|split; [|split]].
  - unfold skipped, has_diff. simpl. by destruct diff.
  - intros E. rewrite E in Hsk. rewrite Hp, Hsk. split; [by destruct (slot_calculated fc')|].
    intros r Er. by apply Hr.
  - intros E. rewrite E in Hsk. by rewrite Hp, Hsk.
  - intros Hin. destruct Hcs as [s Es]; [by right|].
    destruct (Hs s Es) as [l El]. exists s, l. split; [done|].
    intros fuel'. unfold change_summary. by rewrite Es.
Qed.

Lemma pass_skipped_or_run_once_witness :
  passes Examples.changed_read = 1%nat ∧
  ∃ s l, slot_calculated Examples.changed_read = Some (s, l) ∧
         ∀ fuel', @change_summary Examples.shared fuel' Examples.changed_read
                  = Ok (s, Examples.changed_read).
Proof.
  destruct (@pass_skipped_or_run_once Examples.shared 1%nat
              [GetChangeSummary; GetLines; GetChangeSummary]
              (Some Examples.base_file) (Some Examples.head_file) None [] false None
              Examples.changed Examples.changed_read)
    as (_ & _ & Hrun & Hmemo).
  - vm_compute. reflexivity.
  - vm_compute. reflexivity.
  - split.
    + apply Hrun. vm_compute. reflexivity.
    + apply Hmemo. set_solver.
Defined.

(** ** The cache of changed files *)

Lemma probe_after_set pull service username repo_name names r r' :
  redis_set (cache_key service username repo_name pull) (json_dumps (Some names)) r = Ok r' →
  _retrieve_files_with_changes_from_cache (Some pull) service username repo_name r'
  = Ok (Some names).
Proof.
  unfold redis_set, _retrieve_files_with_changes_from_cache, redis_get.
  destruct (connected r); [|done]. intros [= <-]. simpl.
  by rewrite lookup_insert_eq.
Qed.

Lemma new_Comparison_Ok pull service username repo_name head base diff source r self :
  new_Comparison pull service username repo_name head base diff source r = Ok self ↔
  ∃ probe,
    _retrieve_files_with_changes_from_cache pull service username repo_name r = Ok probe ∧
    self = {| pullid := pull; service := service; username := username;
              repo_name := repo_name; head_report := head; base_report := base;
              diff_files := diff; get_source := source; _files_with_changes := probe |}.
Proof.
  unfold new_Comparison. split.
  - intros E. inv_bind E as probe Hprobe. injection E as <-. by exists probe.
  - intros (probe & -> & ->). done.
Qed.

(** A probe that returns is one made without a pull id or on a connection
    that is up: no [OSError] comes from the client to be caught. *)
Lemma probe_Ok pull service username repo_name r probe :
  _retrieve_files_with_changes_from_cache pull service username repo_name r = Ok probe ↔
  match pull with
  | Some p =>
      connected r = true ∧
      probe = match store r !! cache_key service username repo_name p with
              | Some doc => json_loads_names doc
              | None => None
              end
  | None => probe = None
  end.
Proof.
  unfold _retrieve_files_with_changes_from_cache, redis_get.
  destruct pull as [p|]; [|split; [by intros [= <-] | by intros ->]].
  destruct (connected r); [|split; [done | by intros [? _]]].
  destruct (store r !! cache_key service username repo_name p) as [doc|]; simpl.
  - split; [by intros [= <-] | by intros [_ ->]].
  - split; [by intros [= <-] | by intros [_ ->]].
Qed.

Lemma get_file_comparison_hint (self : Comparison) file_name with_src bypass :
  ∃ fc, get_file_comparison self file_name with_src bypass = Ok fc ∧
    should_search_for_changes fc =
      match _files_with_changes self with
      | None => None
      | Some l => Some (bool_decide (file_name ∈ l))
      end.
Proof. unfold get_file_comparison. rewrite new_FileComparison_ok. by eexists. Qed.

(** C8, as the code has it: after a comparison that found no cached value
    wrote the list of names for a pull request, a fresh comparison for the
    same pull request passes the hint [True] for a file in the list and
    [False] for any file that is not in it. *)
Theorem hint_after_cache_write (r r' : Redis) (pull : Z) (service username repo_name : string)
    (head head' : Report) (base base' : option Report) (diff diff' : gmap string diff_data)
    (source source' : string → list string) (names : list string)
    (file_name : string) (with_src bypass : bool) (first : Comparison) :
  new_Comparison (Some pull) service username repo_name head base diff source r = Ok first →
  _files_with_changes first = None →
  _set_files_with_changes_in_cache_if_not_already_set first names r = Ok r' →
  ∃ fresh fc,
    new_Comparison (Some pull) service username repo_name head' base' diff' source' r'
      = Ok fresh ∧
    get_file_comparison fresh file_name with_src bypass = Ok fc ∧
    (file_name ∈ names → should_search_for_changes fc = Some true) ∧
    (file_name ∉ names → should_search_for_changes fc = Some false).
Proof.
  intros Hfirst Hprobe Hset.
  apply new_Comparison_Ok in Hfirst as (probe & _ & ->). simpl in Hprobe. subst probe.
  unfold _set_files_with_changes_in_cache_if_not_already_set in Hset. simpl in Hset.
  apply probe_after_set in Hset.
  eexists. 
  destruct (get_file_comparison_hint
              {| pullid := Some pull; service := service; username := username;
                 repo_name := repo_name; head_report := head'; base_report := base';
                 diff_files := diff'; get_source := source';
                 _files_with_changes := Some names |} file_name with_src bypass)
    as (fc & Hfc & Hhint).
  exists fc. split; [apply new_Comparison_Ok; by eexists|].
  split; [done|]. rewrite Hhint. simpl.
  split; intros Hin.
  - by rewrite bool_decide_eq_true_2.
  - by rewrite bool_decide_eq_false_2.
Qed.

Lemma hint_after_cache_write_witness :
  ∃ fresh fc,
    new_Comparison (Some 7) "github" "codecov" "api" Examples.empty_report None ∅ (λ _, [])
      Examples.written = Ok fresh ∧
    get_file_comparison fresh "c.py" false false = Ok fc ∧
    ("c.py"%string ∈ ["a.py"; "b.py"]%string → should_search_for_changes fc = Some true) ∧
    ("c.py"%string ∉ ["a.py"; "b.py"]%string → should_search_for_changes fc = Some false).
Proof.
  apply (hint_after_cache_write Examples.empty_redis Examples.written 7
           "github" "codecov" "api" Examples.empty_report Examples.empty_report
           None None ∅ ∅ (λ _, []) (λ _, []) ["a.py"; "b.py"]%string "c.py" false false
           Examples.first).
  - vm_compute. reflexivity.
  - vm_compute. reflexivity.
  - vm_compute. reflexivity.
Defined.

(** C8 as the specification words it fails: after the write of the two
    names, the hint for a third file is [False], not unknown. *)
Lemma hint_unknown_counterexample :
  new_Comparison (Some 7) "github" "codecov" "api" Examples.empty_report None ∅ (λ _, [])
    Examples.empty_redis = Ok Examples.first ∧
  _set_files_with_changes_in_cache_if_not_already_set
    Examples.first ["a.py"; "b.py"]%string Examples.empty_redis = Ok Examples.written ∧
  new_Comparison (Some 7) "github" "codecov" "api" Examples.empty_report None ∅ (λ _, [])
    Examples.written = Ok Examples.fresh ∧
  hint_of Examples.fresh "a.py" = Ok (Some true) ∧
  hint_of Examples.fresh "b.py" = Ok (Some true) ∧
  ¬ (∀ file_name, file_name ∉ ["a.py"; "b.py"]%string →
       hint_of Examples.fresh file_name = Ok None).
Proof.
  split; [vm_compute; reflexivity|].
  split; [vm_compute; reflexivity|].
  split; [vm_compute; reflexivity|].
  split; [vm_compute; reflexivity|].
  split; [vm_compute; reflexivity|].
  intros Hclaim. specialize (Hclaim "c.py"%string).
  assert (hint_of Examples.fresh "c.py" = Ok (Some false)) as E by (vm_compute; reflexivity).
  rewrite E in Hclaim. discriminate Hclaim.
  rewrite !not_elem_of_cons. repeat split; try discriminate. apply not_elem_of_nil.
Qed.

(** ** The generator of file comparisons *)

Section GeneratorFacts.
Context `{Shared}.

Lemma same_cache_view_refl c : same_cache_view c c.
Proof. by repeat split. Qed.

Lemma same_cache_view_store file_name fc c c' :
  same_cache_view c c' → same_cache_view c (store_diff file_name fc c').
Proof. intros (? & ? & ? & ? & ? & ?). by repeat split. Qed.

Lemma set_same_cache_view c c' acc r :
  same_cache_view c c' →
  _set_files_with_changes_in_cache_if_not_already_set c' acc r =
  _set_files_with_changes_in_cache_if_not_already_set c acc r.
Proof.
  intros (Hp & Hs & Hu & Hr & Hf & _).
  unfold _set_files_with_changes_in_cache_if_not_already_set.
  by rewrite Hp, Hs, Hu, Hr, Hf.
Qed.

Lemma next_returned fuel c r g :
  returned g = true → next fuel c r g = Ok (None, c, r, g).
Proof. unfold next. by intros ->. Qed.

Lemma take_returned fuel k : ∀ c r g,
  returned g = true → take k fuel c r g = Ok ([], c, r, g).
Proof.
  induction k as [|k IH]; intros c r g Hg; simpl; [done|].
  rewrite next_returned by done. simpl. by rewrite IH.
Qed.

Lemma next_yield fuel c r g file_name rest y c' r' g' :
  returned g = false → pending g = file_name :: rest →
  next fuel c r g = Ok (y, c', r', g') →
  ∃ fc, y = Some fc ∧ r' = r ∧ same_cache_view c c' ∧
    returned g' = false ∧ pending g' = rest ∧
    files_with_changes g' =
      files_with_changes g ++ (if has_changes fc then [file_name] else []).
Proof.
  unfold next. intros -> -> E.
  inv_bind E as fc0 Hfc0. inv_bind E as [s fc] Hcs. injection E as <- <- <- <-.
  exists fc. split; [done|]. split; [done|].
  split; [apply same_cache_view_store, same_cache_view_refl|].
  split; [done|]. split; [done|]. simpl.
  assert (slot_change_summary fc = Some s) as Hslot.
  { unfold change_summary in Hcs. destruct (slot_change_summary fc0) eqn:E0.
    - by injection Hcs as <- <-.
    - inv_bind Hcs as [[s1 l1] fc1] Hcalc. by injection Hcs as <- <-. }
  unfold has_changes. rewrite Hslot.
  destruct (bool_decide (s ≠ ∅)); [done | by rewrite app_nil_r].
Qed.

Lemma changed_names_nil names : changed_names names [] = [].
Proof. unfold changed_names. by destruct names. Qed.

Lemma take_steps fuel k : ∀ c r g ys c' r' g',
  returned g = false →
  take k fuel c r g = Ok (ys, c', r', g') →
  same_cache_view c c' ∧
  files_with_changes g' = files_with_changes g ++ changed_names (pending g) ys ∧
  ((k ≤ length (pending g))%nat → r' = r ∧ returned g' = false) ∧
  ((length (pending g) < k)%nat →
     returned g' = true ∧ length ys = length (pending g) ∧
     _set_files_with_changes_in_cache_if_not_already_set c (files_with_changes g') r
       = Ok r').
Proof.
  induction k as [|k IH]; intros c r g ys c' r' g' Hg; simpl.
  - intros [= <- <- <- <-]. split; [apply same_cache_view_refl|].
    split; [by rewrite changed_names_nil, app_nil_r|]. split; [done | lia].
  - intros E. inv_bind E as [[[y c1] r1] g1] Hnext.
    inv_bind E as [[[ys1 c2] r2] g2] Htake. injection E as <- <- <- <-.
    destruct (pending g) as [|file_name rest] eqn:Hpend.
    + unfold next in Hnext. rewrite Hg, Hpend in Hnext.
      inv_bind Hnext as r0 Hset. injection Hnext as <- <- <- <-.
      rewrite take_returned in Htake by done. injection Htake as <- <- <- <-.
      simpl. split; [apply same_cache_view_refl|].
      split; [by rewrite app_nil_r|]. split; [lia|]. by intros _.
    + destruct (next_yield _ _ _ _ _ _ _ _ _ _ Hg Hpend Hnext)
        as (fc & -> & -> & Hview & Hg1 & Hpend1 & Hacc1).
      destruct (IH _ _ _ _ _ _ _ Hg1 Htake) as (Hview2 & Hacc2 & Hle & Hlt).
      rewrite Hpend1 in *. simpl.
      split.
      { destruct Hview as (? & ? & ? & ? & ? & ?), Hview2 as (? & ? & ? & ? & ? & ?).
        repeat split; congruence. }
      split.
      { rewrite Hacc2, Hacc1, <- app_assoc. f_equal.
        unfold changed_names. simpl. rewrite filter_cons. simpl.
        by destruct (has_changes fc). }
      split.
      { intros Hk. apply Hle. lia. }
      intros Hk. destruct Hlt as (? & ? & Hset); [lia|].
      split; [done|]. split; [lia|].
      by rewrite <- (set_same_cache_view c c1).
Qed.
End GeneratorFacts.

(** C9, as the code has it: a comparison probes the cache when it is
    built. Calling [next] on its generator up to once per file writes
    nothing. The call after the last file writes the accumulated names of
    the files whose change summary is not empty, if and only if the probe
    returned no value and there is a pull id; the write is a plain
    [redis.set], which puts the list under the key whatever the cache holds
    there by then. With a value from the probe, or without a pull id, the
    cache is left as it is. Later calls write nothing more. *)
Theorem files_writes_cache_if_unset `{Shared} (fuel k : nat)
    (pull : option Z) (service username repo_name : string)
    (head : Report) (base : option Report) (diff : gmap string diff_data)
    (source : string → list string) (r0 r r' : Redis)
    (ys : list FileComparison) (self c' : Comparison) (g' : files_generator) :
  new_Comparison pull service username repo_name head base diff source r0 = Ok self →
  take k fuel self r (files self) = Ok (ys, c', r', g') →
  files_with_changes g' = changed_names (report_files head) ys ∧
  ((k ≤ length (report_files head))%nat → r' = r) ∧
  ((length (report_files head) < k)%nat →
     ∃ probe,
       _retrieve_files_with_changes_from_cache pull service username repo_name r0
         = Ok probe ∧
       match probe, pull with
       | None, Some p =>
           redis_set (cache_key service username repo_name p)
                     (json_dumps (Some (files_with_changes g'))) r = Ok r' ∧
           store r' = <[cache_key service username repo_name p :=
                          JList (files_with_changes g')]> (store r)
       | _, _ => r' = r
       end).
Proof.
  intros Hself Htake.
  apply new_Comparison_Ok in Hself as (probe & Hprobe & ->).
  apply take_steps in Htake as (_ & Hacc & Hle & Hlt); [|done].
  simpl in *. split; [done|]. split; [intros Hk; by apply Hle|].
  intros Hk. destruct (Hlt Hk) as (_ & _ & Hset).
  exists probe. split; [done|].
  unfold _set_files_with_changes_in_cache_if_not_already_set in Hset. simpl in Hset.
  destruct probe; [by injection Hset|].
  destruct pull as [p|]; [|by injection Hset].
  split; [done|]. unfold redis_set in Hset.
  destruct (connected r); [|done]. by injection Hset as <-.
Qed.

Lemma files_writes_cache_if_unset_witness :
  files_with_changes Examples.exhausted
    = changed_names ["a.py"%string] [Examples.yielded] ∧
  ((2 ≤ 1)%nat → Examples.cache_after = Examples.empty_redis) ∧
  ((1 < 2)%nat →
     ∃ probe,
       _retrieve_files_with_changes_from_cache (Some 7) "github" "codecov" "api"
         Examples.empty_redis = Ok probe ∧
       match probe, Some 7 with
       | None, Some p =>
           redis_set (cache_key "github" "codecov" "api" p)
                     (json_dumps (Some (files_with_changes Examples.exhausted)))
                     Examples.empty_redis = Ok Examples.cache_after ∧
           store Examples.cache_after
             = <[cache_key "github" "codecov" "api" p :=
                   JList (files_with_changes Examples.exhausted)]>
                 (store Examples.empty_redis)
       | _, _ => Examples.cache_after = Examples.empty_redis
       end).
Proof.
  apply (@files_writes_cache_if_unset Examples.shared 1%nat 2%nat (Some 7)
           "github" "codecov" "api"
           (Examples.one_file Examples.head_file)
           (Some (Examples.one_file Examples.base_file)) ∅ (λ _, [])
           Examples.empty_redis Examples.empty_redis Examples.cache_after
           [Examples.yielded] Examples.cmp Examples.cmp Examples.exhausted).
  - vm_compute. reflexivity.
  - vm_compute. reflexivity.
Defined.

(** C9 as the specification words it fails, on its clause that a prior
    cached value is never overwritten. A comparison for pull request 7 is
    built on an empty cache, so its probe finds nothing. Before its
    generator is run to the end the names of two files are stored under the
    key of the pull request (the cache is then [written]). The call after
    the last file replaces them by the comparison's own list. *)
Lemma first_writer_wins_counterexample :
  new_Comparison (Some 7) "github" "codecov" "api"
    (Examples.one_file Examples.head_file) (Some (Examples.one_file Examples.base_file))
    ∅ (λ _, []) Examples.empty_redis = Ok Examples.cmp ∧
  store Examples.written !! cache_key "github" "codecov" "api" 7
    = Some (JList ["a.py"; "b.py"]%string) ∧
  @take Examples.shared 2 1 Examples.cmp Examples.written (files Examples.cmp)
    = Ok ([Examples.yielded], Examples.cmp, Examples.cache_after, Examples.exhausted) ∧
  store Examples.cache_after !! cache_key "github" "codecov" "api" 7
    = Some (JList ["a.py"%string]) ∧
  ¬ (∀ (r r' : Redis) (prior : json) ys c' g',
       store r !! cache_key "github" "codecov" "api" 7 = Some prior →
       @take Examples.shared 2 1 Examples.cmp r (files Examples.cmp) = Ok (ys, c', r', g') →
       store r' !! cache_key "github" "codecov" "api" 7 = Some prior).
Proof.
  assert (@take Examples.shared 2 1 Examples.cmp Examples.written (files Examples.cmp)
          = Ok ([Examples.yielded], Examples.cmp, Examples.cache_after, Examples.exhausted))
    as Htake by (vm_compute; reflexivity).
  assert (store Examples.written !! cache_key "github" "codecov" "api" 7
          = Some (JList ["a.py"; "b.py"]%string)) as Hprior by (vm_compute; reflexivity).
  split; [vm_compute; reflexivity|].
  split; [exact Hprior|]. split; [exact Htake|].
  split; [vm_compute; reflexivity|].
  intros Hclaim. specialize (Hclaim _ _ _ _ _ _ Hprior Htake).
  vm_compute in Hclaim. discriminate Hclaim.
Qed.

(** A cached [null] reads as no value at the probe, and is replaced
    likewise. *)
Lemma cached_null_is_overwritten :
  new_Comparison (Some 7) "github" "codecov" "api"
    (Examples.one_file Examples.head_file) (Some (Examples.one_file Examples.base_file))
    ∅ (λ _, []) Examples.null_cached = Ok Examples.cmp ∧
  @take Examples.shared 2 1 Examples.cmp Examples.null_cached (files Examples.cmp)
    = Ok ([Examples.yielded], Examples.cmp, Examples.cache_after, Examples.exhausted).
Proof. split; vm_compute; reflexivity. Qed.

(** ** Termination of the pass *)

Arguments _is_added : simpl never.
Arguments _is_removed : simpl never.
Arguments total_lines : simpl never.

Lemma base_count_cons l ls :
  base_count (l :: ls) = (if _is_added (Some l) then 0 else 1) + base_count ls.
Proof.
  unfold base_count. rewrite filter_cons.
  destruct (decide (_is_added (Some l) = false)) as [->|Hl].
  - simpl length. lia.
  - destruct (_is_added (Some l)); [lia | done].
Qed.

Lemma head_count_cons l ls :
  head_count (l :: ls) = (if _is_removed (Some l) then 0 else 1) + head_count ls.
Proof.
  unfold head_count. rewrite filter_cons.
  destruct (decide (_is_removed (Some l) = false)) as [->|Hl].
  - simpl length. lia.
  - destruct (_is_removed (Some l)); [lia | done].
Qed.

Lemma base_count_nonneg ls : 0 ≤ base_count ls.
Proof. unfold base_count. lia. Qed.

Lemma head_count_nonneg ls : 0 ≤ head_count ls.
Proof. unfold head_count. lia. Qed.

Lemma traversing_diff_first he be s rest source B H b h :
  base_offset (header s) = HInt b → head_offset (header s) = HInt h →
  traversing_diff (Manager he be (s :: rest) source B H) =
  Ok (bool_decide (b ≤ B) && bool_decide (B < b + int_or_1 (base_length (header s)))
      || bool_decide (h ≤ H) && bool_decide (H < h + int_or_1 (head_length (header s)))).
Proof. unfold traversing_diff. simpl. by intros -> ->. Qed.

(** A turn that pops a line of the first segment. *)
Lemma iteration_pop he be s rest source B H l ls (evs : list event) :
  seg_lines s = l :: ls →
  traversing_diff (Manager he be (s :: rest) source B H) = Ok true →
  iteration (Manager he be (s :: rest) source B H) evs =
  Ok (Manager he be (match ls with [] => rest | _ :: _ => Segment (header s) ls :: rest end)
        source
        (B + (if _is_added (Some l) then 0 else 1))
        (H + (if _is_removed (Some l) then 0 else 1)),
      evs ++ [Event (if _is_added (Some l) then None else Some B)
                    (if _is_removed (Some l) then None else Some H)
                    (Some l) true]).
Proof.
  intros Hl Hd. unfold iteration, pop_line. rewrite Hd. simpl. rewrite Hl. simpl.
  unfold visit.
  assert (traversing_diff
            (set_segments (Segment (header s) ls :: rest) (Manager he be (s :: rest) source B H))
          = Ok true) as ->.
  { rewrite <- Hd. unfold traversing_diff, set_segments. simpl. done. }
  simpl. unfold call, recorder. simpl. f_equal. f_equal.
  unfold advance, retire, set_pointers, set_segments. simpl.
  destruct (_is_added (Some l)) eqn:Ha.
  - rewrite (added_not_removed _ Ha). simpl. rewrite Z.add_0_r. by destruct ls.
  - destruct (_is_removed (Some l)); simpl; rewrite ?Z.add_0_r; by destruct ls.
Qed.

(** A turn outside the windows of the first segment, if there is one,
    for a file without source. *)
Lemma iteration_filler_eof he be segs B H (evs : list event) :
  traversing_diff (Manager he be segs [] B H) = Ok false →
  (∀ s rest, segs = s :: rest → seg_lines s ≠ []) →
  iteration (Manager he be segs [] B H) evs =
  Ok (Manager he be segs [] (B + 1) (H + 1), evs ++ [Event (Some B) (Some H) None false]).
Proof.
  intros Hd Hne. unfold iteration, pop_line. rewrite Hd. simpl.
  unfold visit. rewrite Hd. simpl. unfold call, recorder. simpl. f_equal. f_equal.
  unfold advance, retire, set_pointers, set_segments. simpl.
  destruct segs as [|s rest]; [done|].
  specialize (Hne s rest eq_refl). by destruct (seg_lines s).
Qed.

(** The same turn with a source whose line at the head pointer is plain. *)
Lemma iteration_filler_src he be segs source B H (evs : list event) :
  traversing_diff (Manager he be segs source B H) = Ok false →
  (∀ s rest, segs = s :: rest → seg_lines s ≠ []) →
  source ≠ [] → Forall plain_text source → 1 ≤ H ≤ Z.of_nat (length source) →
  ∃ l, iteration (Manager he be segs source B H) evs =
       Ok (Manager he be segs source (B + 1) (H + 1),
           evs ++ [Event (Some B) (Some H) (Some l) false]).
Proof.
  intros Hd Hne Hsrc Hplain HH. unfold iteration, pop_line. rewrite Hd. simpl.
  rewrite bool_decide_eq_true_2 by done.
  rewrite py_index_in_range by lia.
  destruct (lookup_lt_is_Some_2 source (Z.to_nat (H - 1))) as [l Hl]; [lia|].
  rewrite Hl. simpl. exists l.
  destruct (proj1 (Forall_forall _ _) Hplain l) as [Ha Hr].
  { by eapply list_elem_of_lookup_2. }
  unfold visit. rewrite Hd. simpl. unfold call, recorder. rewrite Ha, Hr. simpl.
  f_equal. f_equal.
  unfold advance, retire, set_pointers, set_segments. rewrite Ha, Hr. simpl.
  destruct segs as [|s rest]; [done|].
  specialize (Hne s rest eq_refl). by destruct (seg_lines s).
Qed.

Lemma first_line_counts l ls : 0 < base_count (l :: ls) ∨ 0 < head_count (l :: ls).
Proof.
  rewrite base_count_cons, head_count_cons.
  pose proof (base_count_nonneg ls). pose proof (head_count_nonneg ls).
  destruct (_is_added (Some l)) eqn:Ha.
  - rewrite (added_not_removed _ Ha). right. lia.
  - left. lia.
Qed.

Section Placement.
Variable inside : Z → Z → Z → Z → Prop.
Hypothesis inside_mono : ∀ base_end head_end nb nh nb' nh',
  inside base_end head_end nb nh →
  (0 < nb' → 0 < nb) → (0 < nh' → 0 < nh) →
  inside base_end head_end nb' nh'.

(** With well-placed segments, the turn either passes an unchanged line
    before the first segment or pops the next line of that segment; the
    segments stay well placed in both cases. *)
Lemma placed_first he be s rest source B H :
  well_placed inside B H (s :: rest) →
  (traversing_diff (Manager he be (s :: rest) source B H) = Ok false ∧
   well_placed inside (B + 1) (H + 1) (s :: rest) ∧
   ∃ base_end head_end nb nh,
     inside base_end head_end nb nh ∧ 0 ≤ nb ∧ 0 ≤ nh ∧ (0 < nb ∨ 0 < nh) ∧
     B + nb < base_end ∧ H + nh < head_end)
  ∨
  (∃ l ls,
     seg_lines s = l :: ls ∧
     traversing_diff (Manager he be (s :: rest) source B H) = Ok true ∧
     well_placed inside
       (B + (if _is_added (Some l) then 0 else 1))
       (H + (if _is_removed (Some l) then 0 else 1))
       (match ls with [] => rest | _ :: _ => Segment (header s) ls :: rest end) ∧
     inside (B + (if _is_added (Some l) then 0 else 1) + base_count ls)
            (H + (if _is_removed (Some l) then 0 else 1) + head_count ls)
            (base_count ls) (head_count ls)).
Proof.
  intros (b & h & d & Hb & Hh & Hne & Hd & Happ & [Hfb Hfh] & Hin & Hrest).
  destruct (seg_lines s) as [|l ls] eqn:Hls; [done|].
  pose proof (base_count_nonneg ls) as Hnb. pose proof (head_count_nonneg ls) as Hnh.
  destruct (decide (0 < d)) as [Hpos|Hzero].
  - left. destruct (Happ Hpos) as [Hab Hah]. split; [|split].
    + rewrite (traversing_diff_first _ _ _ _ _ _ _ b h) by done.
      f_equal. apply orb_false_iff. split; apply andb_false_iff.
      * rewrite !bool_decide_eq_false. lia.
      * rewrite !bool_decide_eq_false. lia.
    + simpl. exists b, h, (d - 1). rewrite Hls.
      replace (B + 1 + (d - 1)) with (B + d) by lia.
      replace (H + 1 + (d - 1)) with (H + d) by lia.
      split; [done|]. split; [done|]. split; [done|]. split; [lia|].
      split; [intros _; by apply Happ|].
      split; [unfold fits; rewrite Hls; by split | by split].
    + eexists _, _, _, _. split; [exact Hin|].
      pose proof (first_line_counts l ls).
      pose proof (base_count_nonneg (l :: ls)). pose proof (head_count_nonneg (l :: ls)).
      repeat split; try done; lia.
  - right. assert (d = 0) as -> by lia. rewrite !Z.add_0_r in *.
    exists l, ls. split; [done|].
    rewrite base_count_cons, head_count_cons in *.
    assert (inside (B + (if _is_added (Some l) then 0 else 1) + base_count ls)
                   (H + (if _is_removed (Some l) then 0 else 1) + head_count ls)
                   (base_count ls) (head_count ls)) as Hin'.
    { rewrite <- !Z.add_assoc. eapply inside_mono; [exact Hin| |];
        destruct (_is_added (Some l)), (_is_removed (Some l)); lia. }
    split; [|split; [|exact Hin']].
    + rewrite (traversing_diff_first _ _ _ _ _ _ _ b h) by done. f_equal.
      apply orb_true_iff. rewrite !andb_true_iff, !bool_decide_eq_true.
      destruct (_is_added (Some l)) eqn:Ha.
      * rewrite (added_not_removed _ Ha) in *. right. lia.
      * left. lia.
    + destruct ls as [|l2 ls2] eqn:Els.
      * unfold base_count, head_count in Hrest. simpl in Hrest.
        by rewrite !Z.add_0_r in Hrest.
      * rewrite <- Els in *. simpl. exists b, h, 0. rewrite !Z.add_0_r.
        split; [done|]. split; [done|]. split; [by rewrite Els|]. split; [done|].
        split; [lia|]. split; [|split; [exact Hin'|]].
        -- split; intros Hc; simpl in Hc |- *.
           ++ destruct (_is_added (Some l)); lia.
           ++ destruct (_is_removed (Some l)); lia.
        -- by rewrite <- !Z.add_assoc.
Qed.
End Placement.

Lemma inside_eof_mono base_eof head_eof base_end head_end nb nh nb' nh' :
  inside_eof base_eof head_eof base_end head_end nb nh →
  (0 < nb' → 0 < nb) → (0 < nh' → 0 < nh) →
  inside_eof base_eof head_eof base_end head_end nb' nh'.
Proof. unfold inside_eof. intros [Hb Hh] Hnb Hnh. split; eauto. Qed.

Lemma inside_src_mono len base_end head_end nb nh nb' nh' :
  inside_src len base_end head_end nb nh →
  (0 < nb' → 0 < nb) → (0 < nh' → 0 < nh) →
  inside_src len base_end head_end nb' nh'.
Proof. done. Qed.

Lemma well_placed_nonempty inside B H segs s rest :
  well_placed inside B H segs → segs = s :: rest → seg_lines s ≠ [].
Proof. intros Hwp ->. by destruct Hwp as (b & h & d & _ & _ & Hne & _). Qed.

Lemma total_lines_after_pop s l ls rest :
  seg_lines s = l :: ls →
  total_lines (s :: rest) =
  S (total_lines (match ls with [] => rest | _ :: _ => Segment (header s) ls :: rest end)).
Proof. unfold total_lines. simpl. intros ->. by destruct ls. Qed.

(** Without source: a turn keeps the segments well placed and uses up
    one of the turns left. *)
Lemma step_eof m (evs : list event) :
  placed_eof m → traverse_finished m = false →
  ∃ m' e, iteration m evs = Ok (m', evs ++ [e]) ∧ placed_eof m' ∧
          (turns_left_eof m' < turns_left_eof m)%nat.
Proof.
  destruct m as [he be segs source B H]. unfold placed_eof, turns_left_eof. simpl.
  intros [-> Hwp] Hfin. destruct segs as [|s rest].
  - unfold traverse_finished in Hfin. simpl in Hfin.
    apply andb_false_iff in Hfin. rewrite !bool_decide_eq_false in Hfin.
    eexists _, _. split; [by apply iteration_filler_eof|]. simpl.
    split; [done|]. lia.
  - destruct (placed_first _ (inside_eof_mono be he) he be s rest [] B H Hwp)
      as [(Hd & Hwp' & (bend & hend & nb & nh & [Hib Hih] & ? & ? & ? & ? & ?))
         |(l & ls & Hls & Hd & Hwp' & _)].
    + eexists _, _. split.
      { apply iteration_filler_eof; [done|]. intros s' rest' [= <- <-].
        by eapply well_placed_nonempty. }
      simpl. split; [done|]. lia.
    + eexists _, _. split; [by apply iteration_pop|]. simpl. split; [done|].
      rewrite (total_lines_after_pop s l ls rest Hls).
      destruct (_is_added (Some l)), (_is_removed (Some l)); lia.
Qed.

(** With a plain source: the same, and the head pointer stays inside the
    source or one past its end. *)
Lemma step_src m (evs : list event) :
  placed_src m → traverse_finished m = false →
  ∃ m' e, iteration m evs = Ok (m', evs ++ [e]) ∧ placed_src m' ∧
          (turns_left_src m' < turns_left_src m)%nat.
Proof.
  destruct m as [he be segs source B H]. unfold placed_src, turns_left_src. simpl.
  intros (Hsrc & Hplain & HH & Hwp) Hfin. destruct segs as [|s rest].
  - unfold traverse_finished in Hfin. simpl in Hfin.
    rewrite bool_decide_eq_true_2 in Hfin by done.
    apply bool_decide_eq_false in Hfin.
    destruct (iteration_filler_src he be [] source B H evs) as [l Hit];
      try done; [lia|].
    eexists _, _. split; [exact Hit|]. simpl.
    split; [|lia]. split; [done|]. split; [done|]. split; [lia|done].
  - destruct (placed_first _ (inside_src_mono (Z.of_nat (length source)))
                he be s rest source B H Hwp)
      as [(Hd & Hwp' & (bend & hend & nb & nh & Hin & ? & ? & ? & ? & ?))
         |(l & ls & Hls & Hd & Hwp' & Hin)]; unfold inside_src in Hin.
    + destruct (iteration_filler_src he be (s :: rest) source B H evs) as [l Hit];
        try done; [|lia|].
      { intros s' rest' [= <- <-]. by eapply well_placed_nonempty. }
      eexists _, _. split; [exact Hit|]. simpl.
      split; [|lia]. split; [done|]. split; [done|]. split; [lia|done].
    + eexists _, _. split; [by apply iteration_pop|]. simpl.
      pose proof (head_count_nonneg ls).
      split.
      { split; [done|]. split; [done|]. split; [|done].
        destruct (_is_removed (Some l)); lia. }
      rewrite (total_lines_after_pop s l ls rest Hls).
      destruct (_is_removed (Some l)); lia.
Qed.

(** A turn that always succeeds, keeps an invariant and lowers a count
    makes the loop end within that count. *)
Lemma apply_within (Inv : manager → Prop) (left : manager → nat) :
  (∀ m (evs : list event), Inv m → traverse_finished m = false →
     ∃ m' e, iteration m evs = Ok (m', evs ++ [e]) ∧ Inv m' ∧ (left m' < left m)%nat) →
  ∀ (n : nat) m (evs : list event), Inv m → (left m ≤ n)%nat →
    ∃ m' trace, apply n m evs = Ok (m', evs ++ trace) ∧
                (length trace ≤ left m)%nat ∧ traverse_finished m' = true.
Proof.
  intros Hstep n. induction n as [|n IH]; intros m evs Hinv Hn; simpl.
  - destruct (traverse_finished m) eqn:Hfin.
    + exists m, []. rewrite app_nil_r. split; [done|]. split; [simpl; lia | done].
    + destruct (Hstep m evs Hinv Hfin) as (m' & e & _ & _ & Hlt). lia.
  - destruct (traverse_finished m) eqn:Hfin.
    + exists m, []. rewrite app_nil_r. split; [done|]. split; [simpl; lia | done].
    + destruct (Hstep m evs Hinv Hfin) as (m1 & e & -> & Hinv1 & Hlt). simpl.
      destruct (IH m1 (evs ++ [e]) Hinv1) as (m' & trace & -> & Hlen & Hfin'); [lia|].
      exists m', (e :: trace). rewrite <- app_assoc. split; [done|].
      split; [simpl; lia | done].
Qed.

(** More turns than needed change nothing. *)
Lemma apply_more_fuel {V} `{!Visitor V} (n : nat) : ∀ (k : nat) (m : manager) (v : V) r,
  apply n m v = Ok r → apply (n + k) m v = Ok r.
Proof.
  induction n as [|n IH]; intros k m v r; simpl.
  - destruct (traverse_finished m) eqn:Hfin; [|done].
    intros <-. destruct k; simpl; by rewrite Hfin.
  - destruct (traverse_finished m); [done|].
    destruct (iteration m v) as [[m1 v1]| |]; simpl; try done. apply IH.
Qed.

Lemma init_well_placed inside head_eof base_eof segs source :
  well_placed inside (start_base segs) (start_head segs) segs →
  source = [] ∨ head_eof - 1 ≤ Z.of_nat (length source) →
  init head_eof base_eof segs source =
  Ok (Manager head_eof base_eof segs source (start_base segs) (start_head segs)).
Proof.
  intros Hwp Hsrc. unfold init.
  assert (bool_decide (source ≠ [])
          && negb (bool_decide (head_eof - 1 ≤ Z.of_nat (length source))) = false) as ->.
  { apply andb_false_iff. destruct Hsrc as [->|Hlen].
    - left. by apply bool_decide_eq_false_2; intros ?.
    - right. by rewrite bool_decide_eq_true_2. }
  destruct segs as [|s rest]; [done|].
  destruct Hwp as (b & h & d & Hb & Hh & _). simpl. by rewrite Hb, Hh.
Qed.

(** C2, as the code has it: on well-placed segments [apply] comes to an
    end without raising. Without a full source it makes at most (total
    lines of the segments + the larger end marker) turns, the lines between
    and after the hunks being visited too; with a full source none of whose
    lines starts with "+" or "-" it makes at most (total lines of the
    segments + length of the source) turns. *)
Theorem apply_terminates_well_formed (head_eof base_eof : Z) (segs : list segment)
    (source : list string) :
  well_formed_input head_eof base_eof segs source →
  ∃ (m m' : manager) (evs : list event),
    init head_eof base_eof segs source = Ok m ∧
    (∀ fuel, (iteration_bound head_eof base_eof segs source ≤ fuel)%nat →
       apply fuel m [] = Ok (m', evs)) ∧
    (length evs ≤ iteration_bound head_eof base_eof segs source)%nat ∧
    traverse_finished m' = true.
Proof.
  unfold well_formed_input, iteration_bound. destruct source as [|l0 source].
  - intros (HB & HH & Hwp).
    pose (m := Manager head_eof base_eof segs [] (start_base segs) (start_head segs)).
    destruct (apply_within placed_eof turns_left_eof step_eof
                (total_lines segs + Z.to_nat (Z.max base_eof head_eof)) m [])
      as (m' & trace & Happly & Hlen & Hfin).
    { by split. }
    { unfold turns_left_eof. simpl. lia. }
    exists m, m', trace. split; [apply (init_well_placed _ _ _ _ _ Hwp); by left|].
    split; [|split; [|done]].
    + intros fuel Hfuel.
      replace fuel with
        ((total_lines segs + Z.to_nat (Z.max base_eof head_eof))
         + (fuel - (total_lines segs + Z.to_nat (Z.max base_eof head_eof))))%nat by lia.
      by apply apply_more_fuel.
    + unfold turns_left_eof in Hlen. simpl in Hlen. lia.
  - intros (Hassert & Hplain & HH & Hwp).
    pose (m := Manager head_eof base_eof segs (l0 :: source)
                 (start_base segs) (start_head segs)).
    assert (start_head segs = 1) as Hone.
    { unfold start_head in *. destruct segs; lia. }
    destruct (apply_within placed_src turns_left_src step_src
                (total_lines segs + length (l0 :: source)) m [])
      as (m' & trace & Happly & Hlen & Hfin).
    { split; [done|]. split; [done|]. split; [|done]. simpl in *. lia. }
    { unfold turns_left_src. simpl in *. lia. }
    exists m, m', trace. split; [apply (init_well_placed _ _ _ _ _ Hwp); by right|].
    split; [|split; [|done]].
    + intros fuel Hfuel.
      replace fuel with
        ((total_lines segs + length (l0 :: source))
         + (fuel - (total_lines segs + length (l0 :: source))))%nat by lia.
      by apply apply_more_fuel.
    + unfold turns_left_src in Hlen. simpl in *. lia.
Qed.

Ltac by_computation := vm_compute; repeat split; (discriminate || reflexivity).

Lemma two_hunks_well_formed : well_formed_input 8 7 Examples.two_hunks [].
Proof.
  unfold well_formed_input. split; [by_computation|]. split; [by_computation|].
  exists 1, 1, 0. split; [done|]. split; [done|]. split; [done|]. split; [done|].
  split; [lia|].
  split; [split; intros _; by_computation|].
  split; [split; intros _; by_computation|].
  exists 5, 5, 2. split; [done|]. split; [done|]. split; [done|]. split; [done|].
  split; [intros _; split; left; by_computation|].
  split; [split; intros _; by_computation|].
  split; [split; intros _; by_computation | done].
Qed.

Lemma apply_terminates_well_formed_witness :
  ∃ (m m' : manager) (evs : list event),
    init 8 7 Examples.two_hunks [] = Ok m ∧
    (∀ fuel, (iteration_bound 8 7 Examples.two_hunks [] ≤ fuel)%nat →
       apply fuel m [] = Ok (m', evs)) ∧
    (length evs ≤ iteration_bound 8 7 Examples.two_hunks [])%nat ∧
    traverse_finished m' = true.
Proof.
  apply (apply_terminates_well_formed 8 7 Examples.two_hunks []).
  exact two_hunks_well_formed.
Defined.

(** C2 as the specification words it fails: for one hunk of one kept line
    at line 3 of a file of 4 lines, without source, the input is well
    formed, and (total lines of the segments + length of the source) = 1
    turn does not end the loop; it ends after 4 turns. *)
Lemma apply_bound_counterexample :
  well_formed_input 5 5 [Examples.late_hunk] [] ∧
  init 5 5 [Examples.late_hunk] [] = Ok Examples.late ∧
  apply (total_lines [Examples.late_hunk] + length ([] : list string))
        Examples.late ([] : list event) = OutOfFuel ∧
  apply 4 Examples.late ([] : list event) =
    Ok (Manager 5 5 [] [] 5 5,
        [ Event (Some 1) (Some 1) None false;
          Event (Some 2) (Some 2) None false;
          Event (Some 3) (Some 3) (Some " c"%string) true;
          Event (Some 4) (Some 4) None false ]).
Proof.
  split; [|split; [|split]]; try (vm_compute; reflexivity).
  unfold well_formed_input. split; [by_computation|]. split; [by_computation|].
  exists 3, 3, 2. split; [done|]. split; [done|]. split; [done|]. split; [done|].
  split; [intros _; split; left; by_computation|].
  split; [split; intros _; by_computation|].
  split; [split; intros _; by_computation | done].
Qed.

(** A source line that starts with "-" outside any hunk moves only the
    base pointer, so the head pointer never passes the end of the source:
    the loop never ends. *)
Lemma apply_never_ends_on_dash_source (fuel : nat) : ∀ (B : Z) (evs : list event),
  apply fuel (Manager 2 2 [] Examples.dash_source B 1) evs = OutOfFuel.
Proof.
  induction fuel as [|fuel IH]; intros B evs; [done|].
  change (apply (S fuel) (Manager 2 2 [] Examples.dash_source B 1) evs)
    with (apply fuel (Manager 2 2 [] Examples.dash_source (B + 1) 1)
            (evs ++ [Event (Some B) None (Some "- item"%string) false])).
  apply IH.
Qed.

Lemma init_dash_source :
  init 2 2 [] Examples.dash_source = Ok (Manager 2 2 [] Examples.dash_source 1 1).
Proof. reflexivity. Qed.

(** Line number 0 does reach the visitors: when the first hunk has base
    offset 0 the base pointer starts at 0, and a line after the hunk is
    visited with base number 0. *)
Lemma apply_passes_line_zero :
  init 3 0 [Segment (Header (HInt 0) (HInt 0) (HInt 1) (HInt 1)) ["+a"%string]] []
    ≫= (λ m, apply 2 m ([] : list event))
  = Ok (Manager 3 0 [] [] 1 3,
        [ Event None (Some 1) (Some "+a"%string) true;
          Event (Some 0) (Some 2) None false ]).
Proof. vm_compute. reflexivity. Qed.

(** * Further properties of the traverse manager *)

(** ** Visitors see a trace and do not steer the pass *)

Lemma iteration_inv {V} `{!Visitor V} (m : manager) (v : V) m' v' :
  iteration m v = Ok (m', v') ↔
  ∃ line m1 d,
    pop_line m = Ok (line, m1) ∧ traversing_diff m1 = Ok d ∧
    m' = retire (advance line m1) ∧
    call v (if _is_added line then None else Some (base_ln m1))
           (if _is_removed line then None else Some (head_ln m1)) line d = Ok v'.
Proof.
  unfold iteration, visit. split.
  - intros E. inv_bind E as [line m1] Hpop. inv_bind E as v1 Hv.
    injection E as <- <-. inv_bind Hv as d Hd. by exists line, m1, d.
  - intros (line & m1 & d & -> & Hd & -> & Hcall). simpl. rewrite Hd. simpl.
    by rewrite Hcall.
Qed.

Lemma apply_replay_from {V} `{!Visitor V} (fuel : nat) :
  ∀ (m : manager) (v : V) (evs : list event) m' v',
  apply fuel m v = Ok (m', v') →
  ∃ trace, apply fuel m evs = Ok (m', evs ++ trace) ∧ replay v trace = Ok v'.
Proof.
  induction fuel as [|fuel IH]; intros m v evs m' v'; simpl.
  - destruct (traverse_finished m); [|done]. intros [= <- <-].
    exists []. by rewrite app_nil_r.
  - destruct (traverse_finished m).
    { intros [= <- <-]. exists []. by rewrite app_nil_r. }
    intros E. inv_bind E as [m1 v1] Hit.
    apply iteration_inv in Hit as (line & m2 & d & Hpop & Hd & -> & Hcall).
    destruct (IH _ _ (evs ++ [Event (if _is_added line then None else Some (base_ln m2))
                                    (if _is_removed line then None else Some (head_ln m2))
                                    line d]) _ _ E) as (trace & Happly & Hreplay).
    eexists (_ :: trace). split.
    + assert (iteration m evs = Ok (retire (advance line m2), evs ++ [Event
                (if _is_added line then None else Some (base_ln m2))
                (if _is_removed line then None else Some (head_ln m2)) line d])) as ->.
      { apply iteration_inv. by exists line, m2, d. }
      simpl. rewrite Happly. by rewrite <- app_assoc.
    + simpl. rewrite Hcall. simpl. exact Hreplay.
Qed.

Lemma replay_apply_from {V} `{!Visitor V} (fuel : nat) :
  ∀ (m : manager) (v : V) (evs : list event) m' trace v',
  apply fuel m evs = Ok (m', evs ++ trace) → replay v trace = Ok v' →
  apply fuel m v = Ok (m', v').
Proof.
  induction fuel as [|fuel IH]; intros m v evs m' trace v'; simpl.
  - destruct (traverse_finished m); [|done]. intros [= <- Happ].
    assert (trace = []) as -> by (apply (app_inv_head evs); by rewrite app_nil_r).
    by intros [= <-].
  - destruct (traverse_finished m).
    { intros [= <- Happ].
      assert (trace = []) as -> by (apply (app_inv_head evs); by rewrite app_nil_r).
      by intros [= <-]. }
    intros E Hreplay. inv_bind E as [m1 evs1] Hit.
    apply iteration_inv in Hit as (line & m2 & d & Hpop & Hd & -> & Hcall).
    unfold call, recorder in Hcall. injection Hcall as <-.
    assert (∃ rest, trace = Event (if _is_added line then None else Some (base_ln m2))
                            (if _is_removed line then None else Some (head_ln m2))
                            line d :: rest ∧
            apply fuel (retire (advance line m2))
              (evs ++ [Event (if _is_added line then None else Some (base_ln m2))
                             (if _is_removed line then None else Some (head_ln m2))
                             line d])
            = Ok (m', (evs ++ [Event (if _is_added line then None else Some (base_ln m2))
                             (if _is_removed line then None else Some (head_ln m2))
                             line d]) ++ rest)) as (rest & -> & Hrest).
    { destruct (apply_replay_from fuel _ _
                  (evs ++ [Event (if _is_added line then None else Some (base_ln m2))
                             (if _is_removed line then None else Some (head_ln m2))
                             line d]) _ _ E) as (rest & Hrest & _).
      exists rest. split; [|done].
      rewrite E in Hrest. injection Hrest as Heq.
      rewrite <- app_assoc in Heq. by apply app_inv_head in Heq. }
    simpl in Hreplay. inv_bind Hreplay as v1 Hv1.
    assert (iteration m v = Ok (retire (advance line m2), v1)) as ->.
    { apply iteration_inv. by exists line, m2, d. }
    simpl. by eapply IH.
Qed.

(** X1: a pass with any visitors moves the manager as the pass with the
    recording visitor does, and leaves the visitors as they are after being
    called on the recorded events in order: visitors do not steer the pass,
    and each sees the events the others see. *)
Theorem apply_is_replay_of_trace {V} `{!Visitor V} (fuel : nat) (m m' : manager) (v v' : V) :
  apply fuel m v = Ok (m', v') ↔
  ∃ trace, apply fuel m ([] : list event) = Ok (m', trace) ∧ replay v trace = Ok v'.
Proof.
  split.
  - intros E. by apply (apply_replay_from fuel m v []) in E.
  - intros (trace & Happly & Hreplay). by eapply (replay_apply_from fuel m v []).
Qed.

Lemma apply_is_replay_of_trace_witness :
  ∃ trace, apply 3 Examples.m0 ([] : list event) = Ok (Manager 3 3 [] [] 3 3, trace) ∧
           replay Examples.events trace = Ok (Examples.events ++ Examples.events).
Proof.
  apply (proj1 (apply_is_replay_of_trace 3 Examples.m0 (Manager 3 3 [] [] 3 3)
                  Examples.events (Examples.events ++ Examples.events))).
  vm_compute. reflexivity.
Defined.

(** ** Every line of the diff is visited once, in order *)

Lemma diff_values_cons e trace : diff_values (e :: trace) = diff_values [e] ++ diff_values trace.
Proof.
  unfold diff_values. rewrite !filter_cons, filter_nil.
  destruct (decide (ev_is_diff e = true)); simpl; [|done].
  by destruct (ev_value e).
Qed.

Lemma remaining_retire m : remaining (retire m) = remaining m.
Proof.
  destruct m as [he be segs source B H]. unfold remaining, retire. simpl.
  destruct segs as [|s rest]; [done|].
  destruct (seg_lines s) eqn:Hs; simpl; by rewrite ?Hs.
Qed.

Lemma remaining_advance line m : remaining (advance line m) = remaining m.
Proof. unfold remaining, advance. by destruct (_is_added line), (_is_removed line). Qed.

Lemma pop_line_remaining m line m1 d a b :
  pop_line m = Ok (line, m1) → traversing_diff m1 = Ok d →
  remaining m = diff_values [Event a b line d] ++ remaining m1.
Proof.
  unfold pop_line. intros E Hd. inv_bind E as d0 Hd0. destruct d0.
  - destruct (segments m) as [|s rest] eqn:Hsegs; [done|].
    destruct (seg_lines s) as [|l ls] eqn:Hls; [done|]. injection E as <- <-.
    assert (d = true) as ->.
    { unfold traversing_diff in Hd, Hd0. simpl in Hd. rewrite Hsegs in Hd0. simpl in Hd0.
      rewrite Hd0 in Hd. by injection Hd. }
    unfold remaining. rewrite Hsegs. simpl. by rewrite Hls.
  - assert (m1 = m ∧ d = false) as [-> ->].
    { destruct (bool_decide (src m ≠ [])).
      - inv_bind E as l Hl. injection E as <- <-. split; [done|]. congruence.
      - injection E as <- <-. split; [done|]. congruence. }
    done.
Qed.

Lemma apply_Ok_finished {V} `{!Visitor V} (fuel : nat) : ∀ (m : manager) (v : V) m' v',
  apply fuel m v = Ok (m', v') → traverse_finished m' = true.
Proof.
  induction fuel as [|fuel IH]; intros m v m' v'; simpl.
  - destruct (traverse_finished m) eqn:Hfin; [|done]. by intros [= <- <-].
  - destruct (traverse_finished m) eqn:Hfin; [by intros [= <- <-]|].
    intros E. inv_bind E as [m1 v1] Hit. eauto.
Qed.

Lemma finished_no_segments m : traverse_finished m = true → segments m = [].
Proof. unfold traverse_finished. by destruct (segments m). Qed.

Lemma apply_diff_values (fuel : nat) : ∀ (m m' : manager) (evs evs' : list event),
  apply fuel m evs = Ok (m', evs') →
  ∃ trace, evs' = evs ++ trace ∧ diff_values trace = remaining m.
Proof.
  induction fuel as [|fuel IH]; intros m m' evs evs'; simpl.
  - destruct (traverse_finished m) eqn:Hfin; [|done]. intros [= <- <-].
    exists []. rewrite app_nil_r. split; [done|].
    unfold remaining. by rewrite (finished_no_segments _ Hfin).
  - destruct (traverse_finished m) eqn:Hfin.
    { intros [= <- <-]. exists []. rewrite app_nil_r. split; [done|].
      unfold remaining. by rewrite (finished_no_segments _ Hfin). }
    intros E. inv_bind E as [m1 evs1] Hit.
    apply iteration_inv in Hit as (line & m2 & d & Hpop & Hd & -> & Hcall).
    unfold call, recorder in Hcall. injection Hcall as <-.
    apply IH in E as (trace & -> & Htrace).
    eexists (_ :: trace). rewrite <- app_assoc. split; [done|].
    rewrite diff_values_cons, Htrace.
    rewrite remaining_retire, remaining_advance.
    symmetry. by apply pop_line_remaining.
Qed.

(** X2: when a pass returns, no segment is left, and the events flagged
    [is_diff] carry exactly the lines of the segments, each once and in the
    order of the diff. *)
Theorem diff_lines_visited_once (fuel : nat) (m m' : manager) (evs evs' : list event) :
  apply fuel m evs = Ok (m', evs') →
  segments m' = [] ∧
  ∃ trace, evs' = evs ++ trace ∧ diff_values trace = concat (seg_lines <$> segments m).
Proof.
  intros E. split.
  - eapply finished_no_segments, apply_Ok_finished, E.
  - by apply apply_diff_values in E.
Qed.

Lemma diff_lines_visited_once_witness :
  segments (Manager 3 3 [] [] 3 3) = [] ∧
  ∃ trace, Examples.events = [] ++ trace ∧
           diff_values trace = concat (seg_lines <$> segments Examples.m0).
Proof.
  apply (diff_lines_visited_once 3 Examples.m0 (Manager 3 3 [] [] 3 3) [] Examples.events).
  vm_compute. reflexivity.
Defined.

(** ** Line numbers are handed out without gap or repeat *)

Lemma seqZ_step (b b' : Z) : b + 1 ≤ b' → seqZ b (b' - b) = b :: seqZ (b + 1) (b' - (b + 1)).
Proof.
  intros Hb. rewrite (seqZ_cons b) by lia. f_equal. f_equal; lia.
Qed.

Lemma omap_cons_match {A B} (f : A → option B) (x : A) (l : list A) :
  omap f (x :: l) = match f x with Some y => y :: omap f l | None => omap f l end.
Proof. done. Qed.

Lemma classified_single b h e b1 h1 :
  classified b h [e] b1 h1 →
  (ev_base_ln e = Some b ∧ b1 = b + 1 ∨ ev_base_ln e = None ∧ b1 = b) ∧
  (ev_head_ln e = Some h ∧ h1 = h + 1 ∨ ev_head_ln e = None ∧ h1 = h).
Proof.
  intros Hc. inversion Hc; subst;
    match goal with X : classified _ _ [] _ _ |- _ => inversion X; subst end;
    split; auto.
Qed.

(** X3: over a pass the pointers only move forward, and the base numbers
    that the events carry are the integers from the first base pointer up
    to the last one, each once and in order; the same holds for the head
    numbers. *)
Theorem line_numbers_consecutive (fuel : nat) : ∀ (m m' : manager) (evs evs' : list event),
  apply fuel m evs = Ok (m', evs') →
  base_ln m ≤ base_ln m' ∧ head_ln m ≤ head_ln m' ∧
  ∃ trace, evs' = evs ++ trace ∧
    omap ev_base_ln trace = seqZ (base_ln m) (base_ln m' - base_ln m) ∧
    omap ev_head_ln trace = seqZ (head_ln m) (head_ln m' - head_ln m).
Proof.
  induction fuel as [|fuel IH]; intros m m' evs evs'; simpl.
  - destruct (traverse_finished m); [|done]. intros [= <- <-].
    split; [lia|]. split; [lia|]. exists []. rewrite app_nil_r, !Z.sub_diag. by split.
  - destruct (traverse_finished m).
    { intros [= <- <-].
      split; [lia|]. split; [lia|]. exists []. rewrite app_nil_r, !Z.sub_diag. by split. }
    intros E. inv_bind E as [m1 evs1] Hit.
    apply iteration_classified in Hit as (e & -> & He).
    apply classified_single in He as [Hb Hh].
    apply IH in E as (Hle_b & Hle_h & trace & -> & Hbase & Hhead).
    split; [lia|]. split; [lia|].
    exists (e :: trace). rewrite <- app_assoc. split; [done|].
    rewrite !omap_cons_match. split.
    + destruct Hb as [[-> Hb]|[-> Hb]].
      * rewrite Hbase, Hb. symmetry. apply seqZ_step. lia.
      * rewrite Hbase. by rewrite Hb.
    + destruct Hh as [[-> Hh]|[-> Hh]].
      * rewrite Hhead, Hh. symmetry. apply seqZ_step. lia.
      * rewrite Hhead. by rewrite Hh.
Qed.

Lemma line_numbers_consecutive_witness :
  base_ln Examples.m0 ≤ 3 ∧ head_ln Examples.m0 ≤ 3 ∧
  ∃ trace, Examples.events = [] ++ trace ∧
    omap ev_base_ln trace = seqZ (base_ln Examples.m0) (3 - base_ln Examples.m0) ∧
    omap ev_head_ln trace = seqZ (head_ln Examples.m0) (3 - head_ln Examples.m0).
Proof.
  apply (line_numbers_consecutive 3 Examples.m0 (Manager 3 3 [] [] 3 3) [] Examples.events).
  vm_compute. reflexivity.
Defined.

(** ** The line comparisons of a pass *)

Lemma visit_event_ok line b h d :
  event_ok (Event (if _is_added line then None else Some b)
                  (if _is_removed line then None else Some h) line d).
Proof.
  unfold event_ok. simpl.
  destruct (_is_added line), (_is_removed line); split; split; done.
Qed.

Lemma apply_events_ok (fuel : nat) : ∀ (m m' : manager) (evs evs' : list event),
  apply fuel m evs = Ok (m', evs') → Forall event_ok evs → Forall event_ok evs'.
Proof.
  induction fuel as [|fuel IH]; intros m m' evs evs'; simpl.
  - destruct (traverse_finished m); [|done]. by intros [= <- <-].
  - destruct (traverse_finished m); [by intros [= <- <-]|].
    intros E Hok. inv_bind E as [m1 evs1] Hit.
    apply iteration_inv in Hit as (line & m2 & d & Hpop & Hd & -> & Hcall).
    unfold call, recorder in Hcall. injection Hcall as <-.
    apply IH in E; [done|]. apply Forall_app. split; [done|].
    apply Forall_singleton, visit_event_ok.
Qed.

Lemma replay_pair {A B} `{!Visitor A, !Visitor B} (trace : list event) :
  ∀ (a : A) (b : B) a' b',
  replay (a, b) trace = Ok (a', b') → replay a trace = Ok a' ∧ replay b trace = Ok b'.
Proof.
  induction trace as [|e trace IH]; intros a b a' b'; simpl.
  - by intros [= <- <-].
  - intros E. inv_bind E as [a1 b1] Hcall.
    unfold call, pair_visitor in Hcall. simpl in Hcall.
    inv_bind Hcall as a2 Ha. inv_bind Hcall as b2 Hb. injection Hcall as <- <-.
    apply IH in E as [Ea Eb]. rewrite Ha, Hb. by simpl.
Qed.

Section LineComparisons.
Context `{Shared}.

Lemma _get_line_no_number (report_file : option ReportFile) :
  _get_line report_file None = Ok None.
Proof. unfold _get_line. by destruct report_file. Qed.

(** What the line-comparison visitor builds from a trace: one line
    comparison per event that has a value, with the fields of the event. *)
Lemma replay_line_comparisons (trace : list event) : ∀ (self self' : CreateLineComparisonVisitor),
  replay self trace = Ok self' →
  ∃ new, clv_lines self' = clv_lines self ++ new ∧
    event_of <$> new = filter (λ e, ev_value e ≠ None) trace ∧
    Forall (λ lc, lc_value lc ≠ None ∧
                  added lc = _is_added (lc_value lc) ∧
                  removed lc = _is_removed (lc_value lc) ∧
                  (lc_base_ln lc = None → lc_base_line lc = None) ∧
                  (lc_head_ln lc = None → lc_head_line lc = None)) new.
Proof.
  induction trace as [|e trace IH]; intros self self'; simpl.
  - intros [= <-]. exists []. by rewrite app_nil_r.
  - intros E. inv_bind E as self1 Hcall.
    unfold call, line_comparison_visitor in Hcall.
    rewrite filter_cons.
    destruct (ev_value e) as [value|] eqn:Hvalue.
    + inv_bind Hcall as [base_line head_line] Hlines. injection Hcall as <-.
      apply IH in E as (new & -> & Hev & Hok). simpl.
      eexists (_ :: new). rewrite <- app_assoc. split; [done|].
      destruct (decide (Some value ≠ None)) as [_|Hn]; [|by destruct Hn]. split.
      * rewrite fmap_cons, Hev. f_equal. unfold event_of. simpl.
        destruct e; simpl in *. by rewrite Hvalue.
      * apply Forall_cons. split; [|done]. simpl.
        split; [done|]. split; [done|]. split; [done|].
        unfold _get_lines in Hlines.
        inv_bind Hlines as bl Hbl. inv_bind Hlines as hl Hhl. injection Hlines as <- <-.
        split; intros Hnone; rewrite Hnone, _get_line_no_number in *; congruence.
    + injection Hcall as <-. apply IH in E as (new & -> & Hev & Hok).
      exists new. split; [done|]. by destruct (decide (None ≠ None)).
Qed.
End LineComparisons.

Section PassOutputs.
Context `{Shared}.

(** A pass over a file, seen as its trace and the two visitors replayed. *)
Lemma calculate_trace fuel fc s l segs :
  calculate fuel fc = Ok (s, l, segs) → runs_pass fc = true →
  ∃ m m' trace csv clv,
    init (from_option eof 0 (fc_head_file fc)) (from_option eof 0 (fc_base_file fc))
         (from_option dd_segments [] (fc_diff_data fc)) (fc_src fc) = Ok m ∧
    apply fuel m ([] : list event) = Ok (m', trace) ∧
    replay {| csv_base_file := fc_base_file fc; csv_head_file := fc_head_file fc;
              summary := ∅ |} trace = Ok csv ∧
    replay {| clv_base_file := fc_base_file fc; clv_head_file := fc_head_file fc;
              clv_lines := [] |} trace = Ok clv ∧
    s = summary csv ∧ l = clv_lines clv ∧ segs = Some (segments m').
Proof.
  unfold calculate. intros E Hruns. rewrite Hruns in E. inv_bind E as m Hm.
  inv_bind E as [m' [csv clv]] Happly. injection E as <- <- <-.
  destruct (apply_replay_from fuel m _ [] m' _ Happly) as (trace & Htrace & Hreplay).
  apply replay_pair in Hreplay as [Hcsv Hclv].
  by exists m, m', trace, csv, clv.
Qed.

Lemma init_fields he be segs source m :
  init he be segs source = Ok m → segments m = segs ∧ src m = source.
Proof.
  unfold init. destruct (_ && _); [done|]. destruct segs as [|s0 rest].
  - by intros [= <-].
  - intros E. inv_bind E as b Hb. inv_bind E as h Hh. by injection E as <-.
Qed.

(** X4: every line comparison that a pass builds has a value; its base
    number is missing exactly when the line is added, and then so are its
    base line and base coverage; its head number is missing exactly when
    the line is removed, and then so are its head line and head coverage;
    [number] shows the two numbers as they are. *)
Theorem pass_line_comparisons_ok (fuel : nat) (fc : FileComparison) s l segs :
  calculate fuel fc = Ok (s, l, segs) →
  Forall (λ lc, line_comparison_ok lc ∧
                number lc = (lc_base_ln lc, lc_head_ln lc) ∧
                (added lc = true → (coverage lc).1 = None) ∧
                (removed lc = true → (coverage lc).2 = None)) l.
Proof.
  intros E. destruct (runs_pass fc) eqn:Hruns.
  2:{ unfold calculate in E. rewrite Hruns in E. injection E as _ <- _. constructor. }
  destruct (calculate_trace _ _ _ _ _ E Hruns)
    as (m & m' & trace & csv & clv & Hinit & Happly & _ & Hclv & _ & -> & _).
  apply replay_line_comparisons in Hclv as (new & -> & Hev & Hnew). simpl.
  assert (Forall event_ok (filter (λ e, ev_value e ≠ None) trace)) as Hok.
  { apply Forall_forall. intros e He. apply list_elem_of_filter in He as [_ He].
    pose proof (apply_events_ok _ _ _ _ _ Happly (Forall_nil_2 _)) as Hall.
    by apply (proj1 (Forall_forall _ _) Hall). }
  rewrite <- Hev in Hok. clear Hev.
  induction Hnew as [|lc new (Hvalue & Ha & Hr & Hbl & Hhl) _ IH]; [constructor|].
  apply Forall_cons in Hok as [[Hb Hh] Hok]. unfold event_of in Hb, Hh. simpl in Hb, Hh.
  apply Forall_cons. split; [|by apply IH].
  rewrite <- Ha in Hb. rewrite <- Hr in Hh.
  split; [|split; [|split]].
  - unfold line_comparison_ok. split; [done|]. split; [done|]. split; [done|].
    split; [done|]. split; [done|]. split.
    + intros Hadded. by apply Hbl, Hb.
    + intros Hremoved. by apply Hhl, Hh.
  - unfold number. destruct (added lc) eqn:Hadded, (removed lc) eqn:Hremoved;
      rewrite ?(proj2 Hb eq_refl), ?(proj2 Hh eq_refl); done.
  - intros Hadded. unfold coverage. simpl. rewrite Hadded. by destruct (lc_base_line lc).
  - intros Hremoved. unfold coverage. simpl. rewrite Hremoved. by destruct (lc_head_line lc).
Qed.
End PassOutputs.

Lemma pass_line_comparisons_ok_witness :
  Forall (λ lc, line_comparison_ok lc ∧
                number lc = (lc_base_ln lc, lc_head_ln lc) ∧
                (added lc = true → (@coverage Examples.shared lc).1 = None) ∧
                (removed lc = true → (@coverage Examples.shared lc).2 = None))
         Examples.pass_lines.
Proof.
  apply (@pass_line_comparisons_ok Examples.shared 3 Examples.with_diff
           Examples.pass_summary Examples.pass_lines (Some [])).
  vm_compute. reflexivity.
Defined.

Lemma pop_line_no_source m line m1 d :
  src m = [] → pop_line m = Ok (line, m1) → traversing_diff m1 = Ok d →
  (line ≠ None ↔ d = true) ∧ src m1 = [].
Proof.
  intros Hsrc. unfold pop_line. intros E Hd. inv_bind E as d0 Hd0. destruct d0.
  - destruct (segments m) as [|s rest] eqn:Hsegs; [done|].
    destruct (seg_lines s) as [|l ls] eqn:Hls; [done|]. injection E as <- <-.
    assert (d = true) as ->.
    { unfold traversing_diff in Hd, Hd0. simpl in Hd. rewrite Hsegs in Hd0. simpl in Hd0.
      rewrite Hd0 in Hd. by injection Hd. }
    by split.
  - rewrite Hsrc in E. simpl in E. injection E as <- <-.
    assert (d = false) as -> by congruence. by split.
Qed.

Lemma apply_no_source_events (fuel : nat) : ∀ (m m' : manager) (evs evs' : list event),
  src m = [] → apply fuel m evs = Ok (m', evs') →
  Forall (λ e, ev_value e ≠ None ↔ ev_is_diff e = true) evs →
  Forall (λ e, ev_value e ≠ None ↔ ev_is_diff e = true) evs'.
Proof.
  induction fuel as [|fuel IH]; intros m m' evs evs' Hsrc; simpl.
  - destruct (traverse_finished m); [|done]. by intros [= <- <-].
  - destruct (traverse_finished m); [by intros [= <- <-]|].
    intros E Hok. inv_bind E as [m1 evs1] Hit.
    apply iteration_inv in Hit as (line & m2 & d & Hpop & Hd & -> & Hcall).
    unfold call, recorder in Hcall. injection Hcall as <-.
    destruct (pop_line_no_source _ _ _ _ Hsrc Hpop Hd) as [Hline Hsrc2].
    apply IH in E; [done| |].
    + destruct m2 as [he be segs source B Hh]. simpl in Hsrc2. subst source.
      unfold retire, advance, set_pointers, set_segments.
      destruct (_is_added line), (_is_removed line); simpl;
        destruct segs as [|s rest]; simpl; try done; by destruct (seg_lines s).
    + apply Forall_app. split; [done|]. by apply Forall_singleton.
Qed.

Lemma filter_equiv {A} (P Q : A → Prop) `{!∀ x, Decision (P x), !∀ x, Decision (Q x)}
    (l : list A) :
  Forall (λ x, P x ↔ Q x) l → filter P l = filter Q l.
Proof.
  induction 1 as [|x l Hx _ IH]; [done|]. rewrite !filter_cons, IH.
  destruct (decide (P x)), (decide (Q x)); tauto.
Qed.

Lemma values_of_valued (l : list event) :
  Forall (λ e, ev_value e ≠ None) l → ev_value <$> l = Some <$> omap ev_value l.
Proof.
  induction 1 as [|e l He _ IH]; [done|]. rewrite fmap_cons, omap_cons_match.
  destruct (ev_value e); [|done]. by rewrite fmap_cons, IH.
Qed.

Section Lines.
Context `{Shared}.

Lemma calculate_lines_trace (fuel : nat) (fc : FileComparison) s l segs :
  calculate fuel fc = Ok (s, l, segs) → runs_pass fc = true →
  ∃ m m' trace,
    init (from_option eof 0 (fc_head_file fc)) (from_option eof 0 (fc_base_file fc))
         (from_option dd_segments [] (fc_diff_data fc)) (fc_src fc) = Ok m ∧
    apply fuel m ([] : list event) = Ok (m', trace) ∧
    event_of <$> l = filter (λ e, ev_value e ≠ None) trace.
Proof.
  intros E Hruns.
  destruct (calculate_trace _ _ _ _ _ E Hruns)
    as (m & m' & trace & csv & clv & Hinit & Happly & _ & Hclv & _ & -> & _).
  exists m, m', trace. split; [done|]. split; [done|].
  apply replay_line_comparisons in Hclv as (new & -> & Hev & _). done.
Qed.

(** X5: the lines of a pass are, in the order of the traversal, the events
    that carry a value, with their numbers, value and [is_diff]; events
    without a value leave no line. *)
Theorem lines_are_the_valued_events (fuel : nat) (fc : FileComparison) s l segs :
  calculate fuel fc = Ok (s, l, segs) → runs_pass fc = true →
  ∃ m m' trace,
    init (from_option eof 0 (fc_head_file fc)) (from_option eof 0 (fc_base_file fc))
         (from_option dd_segments [] (fc_diff_data fc)) (fc_src fc) = Ok m ∧
    apply fuel m ([] : list event) = Ok (m', trace) ∧
    event_of <$> l = filter (λ e, ev_value e ≠ None) trace.
Proof. apply calculate_lines_trace. Qed.

(** X6: without a full source the lines of a pass are exactly the lines of
    the diff segments, in order and all flagged [is_diff]; a file without
    diff has no lines at all, whatever its reports. *)
Theorem lines_without_source (fuel : nat) (fc : FileComparison) s l segs :
  calculate fuel fc = Ok (s, l, segs) → fc_src fc = [] →
  lc_value <$> l =
    Some <$> concat (seg_lines <$> from_option dd_segments [] (fc_diff_data fc)) ∧
  Forall (λ lc, lc_is_diff lc = true) l.
Proof.
  intros E Hsrc. destruct (runs_pass fc) eqn:Hruns.
  2:{ unfold calculate in E. rewrite Hruns in E. injection E as _ <- _.
      unfold runs_pass in Hruns. apply orb_false_iff in Hruns as [Hdiff _].
      apply bool_decide_eq_false in Hdiff.
      destruct (fc_diff_data fc); [by destruct Hdiff|]. by split. }
  destruct (calculate_lines_trace fuel fc s l segs E Hruns)
    as (m & m' & trace & Hinit & Happly & Hev).
  destruct (init_fields _ _ _ _ _ Hinit) as [Hsegs Hsrcm]. rewrite Hsrc in Hsrcm.
  pose proof (apply_no_source_events _ _ _ _ _ Hsrcm Happly (Forall_nil_2 _)) as Hall.
  rewrite (filter_equiv (λ e, ev_value e ≠ None) (λ e, ev_is_diff e = true) trace Hall)
    in Hev.
  destruct (apply_diff_values fuel m m' [] trace Happly) as (trace' & Htr & Hdiff).
  simpl in Htr. subst trace'. unfold remaining in Hdiff.
  split.
  - rewrite <- Hsegs, <- Hdiff. unfold diff_values.
    rewrite <- values_of_valued.
    + rewrite <- Hev, <- list_fmap_compose. done.
    + apply Forall_forall. intros e He. apply list_elem_of_filter in He as [Hd He].
      by apply (proj1 (Forall_forall _ _) Hall e He).
  - apply Forall_forall. intros lc Hlc.
    assert (event_of lc ∈ filter (λ e, ev_is_diff e = true) trace) as Hin.
    { rewrite <- Hev. by apply list_elem_of_fmap_2. }
    by apply list_elem_of_filter in Hin as [Hd _].
Qed.
End Lines.

Lemma lines_are_the_valued_events_witness :
  ∃ m m' trace,
    init 3 3 [Examples.hunk] [] = Ok m ∧
    apply 3 m ([] : list event) = Ok (m', trace) ∧
    event_of <$> Examples.pass_lines = filter (λ e, ev_value e ≠ None) trace.
Proof.
  apply (@lines_are_the_valued_events Examples.shared 3 Examples.with_diff
           Examples.pass_summary Examples.pass_lines (Some [])).
  - vm_compute. reflexivity.
  - vm_compute. reflexivity.
Defined.

Lemma lines_without_source_witness :
  lc_value <$> Examples.pass_lines = Some <$> concat (seg_lines <$> [Examples.hunk]) ∧
  Forall (λ lc, lc_is_diff lc = true) Examples.pass_lines.
Proof.
  apply (@lines_without_source Examples.shared 3 Examples.with_diff
           Examples.pass_summary Examples.pass_lines (Some [])).
  - vm_compute. reflexivity.
  - reflexivity.
Defined.

(** ** Size of the change summary *)

Section SummarySize.
Context `{Shared}.

Lemma change_summary_call_prefixed self base head value is_diff self' :
  call self base head value is_diff = Ok self' →
  ¬ (_is_added value = false ∧ _is_removed value = false) →
  summary self' = summary self.
Proof.
  unfold call, change_summary_visitor. fold (_is_added value). fold (_is_removed value).
  destruct (_is_added value), (_is_removed value); simpl;
    try (intros [= <-]; done).
  intros _ Hn. by destruct Hn.
Qed.

Lemma change_summary_call_delta self base head value is_diff self' k :
  call self base head value is_diff = Ok self' →
  Z.abs (counter_get (summary self') k - counter_get (summary self) k) ≤ 1 ∧
  (k ∉ categories → summary self' !! k = summary self !! k).
Proof.
  intros E. apply change_summary_call in E as [->|(kb & kh & Hb & Hh & Hne & ->)].
  - rewrite Z.sub_diag. split; [simpl; lia | done].
  - split.
    + rewrite !counter_get_add. repeat case_decide; subst; try done; lia.
    + intros Hk. unfold counter_add. rewrite !lookup_insert_ne; [done|..];
        intros <-; done.
Qed.

Lemma replay_summary_size (trace : list event) : ∀ (self self' : CreateChangeSummaryVisitor) k,
  replay self trace = Ok self' →
  Z.abs (counter_get (summary self') k - counter_get (summary self) k)
    ≤ Z.of_nat (length (filter unchanged_event trace)) ∧
  (k ∉ categories → summary self' !! k = summary self !! k).
Proof.
  induction trace as [|e trace IH]; intros self self' k; simpl.
  - intros [= <-]. rewrite Z.sub_diag. split; [simpl; lia | done].
  - intros E. inv_bind E as self1 Hcall.
    destruct (IH _ _ k E) as [Hsize Hkeys].
    destruct (change_summary_call_delta _ _ _ _ _ _ k Hcall) as [Hone Hkey1].
    split; [|intros Hk; by rewrite Hkeys, Hkey1].
    rewrite filter_cons. destruct (decide (unchanged_event e)) as [Hu|Hu].
    + simpl length. lia.
    + rewrite (change_summary_call_prefixed _ _ _ _ _ _ Hcall Hu) in Hsize. done.
Qed.

(** X7: the change summary of a pass has no key besides "hits", "misses"
    and "partials", and no value in it is further from 0 than the number
    of events of the pass whose value is neither added nor removed. *)
Theorem change_summary_size (fuel : nat) (fc : FileComparison) s l segs :
  calculate fuel fc = Ok (s, l, segs) →
  (∀ k, k ∉ categories → s !! k = None) ∧
  (runs_pass fc = false → s = ∅) ∧
  (runs_pass fc = true →
     ∃ m m' trace,
       init (from_option eof 0 (fc_head_file fc)) (from_option eof 0 (fc_base_file fc))
            (from_option dd_segments [] (fc_diff_data fc)) (fc_src fc) = Ok m ∧
       apply fuel m ([] : list event) = Ok (m', trace) ∧
       ∀ k, Z.abs (counter_get s k) ≤ Z.of_nat (length (filter unchanged_event trace))).
Proof.
  intros E. destruct (runs_pass fc) eqn:Hruns.
  - destruct (calculate_trace _ _ _ _ _ E Hruns)
      as (m & m' & trace & csv & clv & Hinit & Happly & Hcsv & _ & -> & _ & _).
    split; [|split; [done|]].
    + intros k Hk. destruct (replay_summary_size _ _ _ k Hcsv) as [_ Hkeys].
      by rewrite Hkeys.
    + intros _. exists m, m', trace. split; [done|]. split; [done|].
      intros k. destruct (replay_summary_size _ _ _ k Hcsv) as [Hsize _].
      simpl in Hsize. unfold counter_get at 2 in Hsize. rewrite lookup_empty in Hsize.
      simpl in Hsize. by rewrite Z.sub_0_r in Hsize.
  - unfold calculate in E. rewrite Hruns in E. injection E as <- _ _.
    split; [done|]. split; done.
Qed.

End SummarySize.

Lemma change_summary_size_witness :
  (∀ k, k ∉ categories → Examples.moved !! k = None) ∧
  (runs_pass Examples.changed = false → Examples.moved = ∅) ∧
  (runs_pass Examples.changed = true →
     ∃ m m' trace,
       init 2 2 [] [] = Ok m ∧
       apply 1 m ([] : list event) = Ok (m', trace) ∧
       ∀ k, Z.abs (counter_get Examples.moved k)
            ≤ Z.of_nat (length (filter unchanged_event trace))).
Proof.
  apply (@change_summary_size Examples.shared 1 Examples.changed Examples.moved [] (Some [])).
  vm_compute. reflexivity.
Defined.

(** ** A full source without diff *)

Lemma iteration_source_line {V} `{!Visitor V} he be source B Hd l (v v' : V) :
  1 ≤ Hd → source !! Z.to_nat (Hd - 1) = Some l →
  call v (if _is_added (Some l) then None else Some B)
         (if _is_removed (Some l) then None else Some Hd) (Some l) false = Ok v' →
  iteration (Manager he be [] source B Hd) v =
  Ok (advance (Some l) (Manager he be [] source B Hd), v').
Proof.
  intros HH Hl Hcall. apply iteration_inv.
  exists (Some l), (Manager he be [] source B Hd), false.
  split; [|split; [done|split; [|exact Hcall]]].
  2:{ unfold retire, advance. by destruct (_is_added (Some l)), (_is_removed (Some l)). }
  unfold pop_line. simpl.
  rewrite bool_decide_eq_true_2 by (intros ->; by rewrite lookup_nil in Hl).
  rewrite py_index_in_range by lia. by rewrite Hl.
Qed.

Lemma not_finished_inside_source he be source B Hd l :
  1 ≤ Hd → source !! Z.to_nat (Hd - 1) = Some l →
  traverse_finished (Manager he be [] source B Hd) = false.
Proof.
  intros HH Hl. unfold traverse_finished. simpl.
  rewrite bool_decide_eq_true_2 by (intros ->; by rewrite lookup_nil in Hl).
  apply bool_decide_eq_false_2. apply lookup_lt_Some in Hl. lia.
Qed.

Lemma apply_plain_source he be (rest : list string) :
  ∀ (fuel : nat) (done_ : list string) (evs : list event),
  Forall plain_text rest → (length rest ≤ fuel)%nat →
  rest ≠ [] ∨ done_ ≠ [] →
  apply fuel (Manager he be [] (done_ ++ rest)
                (Z.of_nat (length done_) + 1) (Z.of_nat (length done_) + 1)) evs =
  Ok (Manager he be [] (done_ ++ rest)
        (Z.of_nat (length (done_ ++ rest)) + 1) (Z.of_nat (length (done_ ++ rest)) + 1),
      evs ++ source_events (Z.of_nat (length done_) + 1) rest).
Proof.
  induction rest as [|l rest IH]; intros fuel done_ evs Hplain Hfuel Hne.
  - rewrite !app_nil_r. simpl.
    assert (traverse_finished (Manager he be [] done_ (Z.of_nat (length done_) + 1)
                                 (Z.of_nat (length done_) + 1)) = true) as Hfin.
    { unfold traverse_finished. simpl. destruct Hne as [?|Hne]; [done|].
      rewrite bool_decide_eq_true_2 by done. apply bool_decide_eq_true_2. lia. }
    destruct fuel; simpl; by rewrite Hfin.
  - apply Forall_cons in Hplain as [[Ha Hr] Hplain].
    destruct fuel as [|fuel]; [simpl in Hfuel; lia|].
    assert ((done_ ++ l :: rest) !! Z.to_nat (Z.of_nat (length done_) + 1 - 1) = Some l) as Hl.
    { replace (Z.to_nat (Z.of_nat (length done_) + 1 - 1)) with (length done_) by lia.
      by apply list_lookup_middle. }
    simpl apply.
    rewrite (not_finished_inside_source _ _ _ _ _ l) by (lia || done).
    rewrite (iteration_source_line he be _ _ _ l evs
               (evs ++ [Event (Some (Z.of_nat (length done_) + 1))
                              (Some (Z.of_nat (length done_) + 1)) (Some l) false]));
      [|lia|done|].
    2:{ unfold call, recorder. by rewrite Ha, Hr. }
    simpl. unfold advance. rewrite Ha, Hr. unfold set_pointers. simpl.
    replace (done_ ++ l :: rest) with ((done_ ++ [l]) ++ rest) by (by rewrite <- app_assoc).
    replace (Z.of_nat (length done_) + 1 + 1) with (Z.of_nat (length (done_ ++ [l])) + 1)
      by (rewrite length_app; simpl; lia).
    rewrite (IH fuel (done_ ++ [l])); [|done|simpl in Hfuel; lia|right; by destruct done_].
    do 2 f_equal. by rewrite <- (app_assoc evs).
Qed.

(** X8: for a non-empty full source without diff whose lines are all
    plain, [apply] ends after one turn per source line, and the k-th event
    carries base number k, head number k, the k-th source line and
    [is_diff] false; the end markers play no part. *)
Theorem apply_reads_plain_source (head_eof base_eof : Z) (source : list string) :
  source ≠ [] → Forall plain_text source →
  head_eof - 1 ≤ Z.of_nat (length source) →
  ∃ m m',
    init head_eof base_eof [] source = Ok m ∧
    ∀ fuel, (length source ≤ fuel)%nat →
      apply fuel m ([] : list event) = Ok (m', source_events 1 source).
Proof.
  intros Hne Hplain Hassert.
  exists (Manager head_eof base_eof [] source 1 1),
         (Manager head_eof base_eof [] source
            (Z.of_nat (length source) + 1) (Z.of_nat (length source) + 1)).
  split.
  - unfold init. rewrite (bool_decide_eq_true_2 (_ ≤ _)) by done.
    by rewrite andb_false_r.
  - intros fuel Hfuel.
    pose proof (apply_plain_source head_eof base_eof source fuel [] [] Hplain Hfuel
                  (or_introl Hne)) as Hp.
    exact Hp.
Qed.

Lemma apply_reads_plain_source_witness :
  ∃ m m',
    init 3 9 [] ["a"; "b"]%string = Ok m ∧
    ∀ fuel, (length ["a"; "b"]%string ≤ fuel)%nat →
      apply fuel m ([] : list event) = Ok (m', source_events 1 ["a"; "b"]%string).
Proof.
  apply (apply_reads_plain_source 3 9 ["a"; "b"]%string).
  - done.
  - repeat constructor.
  - simpl. lia.
Defined.

(** ** A source line that reads as removed *)

Lemma removed_not_added value : _is_removed value = true → _is_added value = false.
Proof.
  intros Hr. destruct (_is_added value) eqn:Ha; [|done].
  by rewrite (added_not_removed _ Ha) in Hr.
Qed.

(** X9: without segments, when the source line at the head pointer starts
    with "-", [apply] never returns, whatever the visitors: each turn moves
    the base pointer only, and the head pointer never passes the end of
    the source. *)
Theorem apply_never_returns_on_dash_line {V} `{!Visitor V}
    (head_eof base_eof : Z) (source : list string) (H : Z) (l : string) :
  1 ≤ H → source !! Z.to_nat (H - 1) = Some l → _is_removed (Some l) = true →
  ∀ (fuel : nat) (B : Z) (v : V) r,
    apply fuel (Manager head_eof base_eof [] source B H) v ≠ Ok r.
Proof.
  intros HH Hl Hr fuel. induction fuel as [|fuel IH]; intros B v r; simpl;
    rewrite (not_finished_inside_source _ _ _ _ _ l HH Hl); [done|].
  intros E. inv_bind E as [m1 v1] Hit.
  apply iteration_inv in Hit as (line & m2 & d & Hpop & Hd & -> & Hcall).
  assert (line = Some l ∧ m2 = Manager head_eof base_eof [] source B H) as [-> ->].
  { unfold pop_line in Hpop. simpl in Hpop.
    rewrite bool_decide_eq_true_2 in Hpop by (intros ->; by rewrite lookup_nil in Hl).
    rewrite py_index_in_range in Hpop by lia. rewrite Hl in Hpop. simpl in Hpop.
    by injection Hpop as <- <-. }
  unfold advance in E. rewrite (removed_not_added _ Hr), Hr in E.
  by apply IH in E.
Qed.

Lemma apply_never_returns_on_dash_line_witness :
  apply 5 (Manager 2 2 [] Examples.dash_source 1 1) ([] : list event)
  ≠ Ok (Manager 2 2 [] Examples.dash_source 6 1, []).
Proof.
  apply (apply_never_returns_on_dash_line 2 2 Examples.dash_source 1 "- item").
  - lia.
  - reflexivity.
  - reflexivity.
Defined.

(** ** The diff is consumed by the pass *)

Section Consumed.
Context `{Shared}.

Lemma calculate_consumes fuel fc s l segs :
  calculate fuel fc = Ok (s, l, segs) → fc_diff_data fc ≠ None → segs = Some [].
Proof.
  intros E Hdiff.
  assert (runs_pass fc = true) as Hruns.
  { unfold runs_pass. by rewrite bool_decide_eq_true_2. }
  destruct (calculate_trace _ _ _ _ _ E Hruns)
    as (m & m' & trace & csv & clv & _ & Happly & _ & _ & _ & _ & ->).
  f_equal. eapply finished_no_segments, apply_Ok_finished, Happly.
Qed.

(** X10: the pass pops the lines from the diff document that the
    comparison holds. Once [next] has yielded the file comparison of a file
    that has a diff, the diff of that file has no segment left, and a file
    comparison built for the same file afterwards has a diff length of 0,
    whatever the length of the diff was. *)
Theorem diff_consumed_by_pass (fuel : nat) (self self' : Comparison) (r r' : Redis)
    (g g' : files_generator) (file_name : string) (rest : list string)
    (d : diff_data) (y : option FileComparison) (with_src bypass : bool) :
  returned g = false → pending g = file_name :: rest →
  diff_files self !! file_name = Some d →
  next fuel self r g = Ok (y, self', r', g') →
  diff_files self' !! file_name = Some (DiffData [] (dd_before d)) ∧
  ∃ fc fc2,
    y = Some fc ∧ total_diff_length fc = diff_line_count (Some d) ∧
    get_file_comparison self' file_name with_src bypass = Ok fc2 ∧
    total_diff_length fc2 = 0 ∧
    fc_diff_data fc2 = Some (DiffData [] (dd_before d)).
Proof.
  intros Hg Hpend Hd. unfold next. rewrite Hg, Hpend. intros E.
  inv_bind E as fc0 Hfc0. inv_bind E as [s fc] Hcs. injection E as <- <- <- <-.
  unfold get_file_comparison in Hfc0. rewrite new_FileComparison_ok, Hd in Hfc0.
  injection Hfc0 as <-.
  unfold change_summary, _calculated_changes_and_lines in Hcs. simpl in Hcs.
  inv_bind Hcs as [[s1 l1] fc1] Hcalc. injection Hcs as <- <-.
  inv_bind Hcalc as [[s2 l2] segs] Hcalc2. injection Hcalc as <- <- <-.
  apply calculate_consumes in Hcalc2; [|done]. subst segs.
  match goal with
  | |- diff_files ?c !! file_name = _ ∧ _ =>
      assert (diff_files c !! file_name = Some (DiffData [] (dd_before d))) as Hstored
        by (unfold store_diff; simpl; by rewrite lookup_insert_eq)
  end.
  split; [exact Hstored|].
  eexists _, _. split; [done|]. split; [done|].
  unfold get_file_comparison. rewrite new_FileComparison_ok, Hstored.
  split; [done|]. by split.
Qed.
End Consumed.

Lemma diff_consumed_by_pass_witness :
  diff_files Examples.next_comparison !! "a.py"%string = Some (DiffData [] None) ∧
  ∃ fc fc2,
    Examples.next_yielded = Some fc ∧
    total_diff_length fc = diff_line_count (Some (DiffData [Examples.hunk] None)) ∧
    get_file_comparison Examples.next_comparison "a.py" false false = Ok fc2 ∧
    total_diff_length fc2 = 0 ∧
    fc_diff_data fc2 = Some (DiffData [] None).
Proof.
  apply (@diff_consumed_by_pass Examples.shared 3 Examples.cmp_diff Examples.next_comparison
           Examples.empty_redis Examples.empty_redis
           (files Examples.cmp_diff) Examples.next_generator "a.py" []
           (DiffData [Examples.hunk] None) Examples.next_yielded false false).
  - reflexivity.
  - reflexivity.
  - vm_compute. reflexivity.
  - vm_compute. reflexivity.
Defined.

(** ** The cache when redis is down *)

Section CacheDown.
Context `{Shared}.

Lemma take_pending fuel k : ∀ c r g ys c' r' g',
  returned g = false → (k ≤ length (pending g))%nat →
  take k fuel c r g = Ok (ys, c', r', g') →
  pending g' = drop k (pending g).
Proof.
  induction k as [|k IH]; intros c r g ys c' r' g' Hg Hk; simpl.
  - by intros [= <- <- <- <-].
  - intros E. inv_bind E as [[[y c1] r1] g1] Hnext.
    inv_bind E as [[[ys1 c2] r2] g2] Htake. injection E as <- <- <- <-.
    destruct (pending g) as [|file_name rest] eqn:Hpend; [simpl in Hk; lia|].
    destruct (next_yield _ _ _ _ _ _ _ _ _ _ Hg Hpend Hnext)
      as (fc & _ & _ & _ & Hg1 & Hpend1 & _).
    simpl. rewrite <- Hpend1. eapply IH; [done| |exact Htake].
    rewrite Hpend1. simpl in Hk. lia.
Qed.

Lemma take_succ fuel k c r g :
  take (S k) fuel c r g =
  next fuel c r g ≫= λ '(y, self', r', g'),
    take k fuel self' r' g' ≫= λ '(ys, self'', r'', g''),
      Ok (from_option (λ fc, [fc]) [] y ++ ys, self'', r'', g'').
Proof. done. Qed.

Lemma take_then_raise fuel k : ∀ c r g ys c' r' g' e,
  take k fuel c r g = Ok (ys, c', r', g') → next fuel c' r' g' = Raise e →
  take (S k) fuel c r g = Raise e.
Proof.
  induction k as [|k IH]; intros c r g ys c' r' g' e.
  - simpl. intros [= <- <- <- <-] ->. done.
  - intros E Hraise. rewrite take_succ in E.
    inv_bind E as [[[y c1] r1] g1] Hnext.
    inv_bind E as [[[ys1 c2] r2] g2] Htake. injection E as <- <- <- <-.
    rewrite (take_succ fuel (S k)), Hnext.
    change (take (S k) fuel c1 r1 g1 ≫= (λ '(ys, self'', r'', g''),
              Ok (from_option (λ fc, [fc]) [] y ++ ys, self'', r'', g'')) = Raise e).
    by rewrite (IH _ _ _ _ _ _ _ _ Htake Hraise).
Qed.

(** X11: on a connection that is down the client raises its
    [ConnectionError], which the [except OSError] around the probe does not
    catch: building a comparison with a pull id raises it, while a
    comparison without pull id is built without a call to the client. When
    the connection is down by the time the generator of a comparison whose
    probe found nothing has yielded every file, the call after the last one
    raises too: the write at the end of [files] is not guarded. *)
Theorem files_raises_when_redis_down (fuel : nat) (p : Z) (service username repo_name : string)
    (head : Report) (base : option Report) (diff : gmap string diff_data)
    (source : string → list string) (up down : Redis) (self : Comparison)
    (ys : list FileComparison) (c' : Comparison) (r' : Redis) (g' : files_generator) :
  connected down = false →
  new_Comparison (Some p) service username repo_name head base diff source down
    = Raise ConnectionError ∧
  (∃ c, new_Comparison None service username repo_name head base diff source down = Ok c ∧
        _files_with_changes c = None) ∧
  (new_Comparison (Some p) service username repo_name head base diff source up = Ok self →
   _files_with_changes self = None →
   take (length (report_files head)) fuel self down (files self) = Ok (ys, c', r', g') →
   take (S (length (report_files head))) fuel self down (files self)
     = Raise ConnectionError).
Proof.
  intros Hdown. split.
  { unfold new_Comparison, _retrieve_files_with_changes_from_cache, redis_get.
    by rewrite Hdown. }
  split; [by eexists|].
  intros Hself Hprobe Htake.
  assert (pullid self = Some p ∧ report_files (head_report self) = report_files head)
    as [Hpull Hhead].
  { apply new_Comparison_Ok in Hself as (probe & _ & ->). done. }
  eapply take_then_raise; [exact Htake|].
  pose proof (take_pending fuel (length (report_files head)) self down (files self)
                ys c' r' g' eq_refl) as Hpend.
  simpl in Hpend. rewrite Hhead in Hpend.
  specialize (Hpend (le_n _) Htake).
  apply take_steps in Htake as (Hview & _ & Hle & _); [|done].
  simpl in Hle. rewrite Hhead in Hle.
  destruct (Hle (le_n _)) as [-> Hret].
  rewrite drop_all in Hpend.
  unfold next. rewrite Hret, Hpend.
  rewrite (set_same_cache_view self c') by done.
  unfold _set_files_with_changes_in_cache_if_not_already_set. rewrite Hprobe, Hpull.
  unfold redis_set. by rewrite Hdown.
Qed.
End CacheDown.

Lemma files_raises_when_redis_down_witness :
  new_Comparison (Some 7) "github" "codecov" "api"
    (Examples.one_file Examples.head_file) (Some (Examples.one_file Examples.base_file))
    ∅ (λ _, []) Examples.down = Raise ConnectionError ∧
  new_Comparison None "github" "codecov" "api"
    (Examples.one_file Examples.head_file) (Some (Examples.one_file Examples.base_file))
    ∅ (λ _, []) Examples.down = Ok Examples.no_pull ∧
  @take Examples.shared 2 1 Examples.cmp Examples.down (files Examples.cmp)
    = Raise ConnectionError.
Proof.
  destruct (@files_raises_when_redis_down Examples.shared 1 7 "github" "codecov" "api"
              (Examples.one_file Examples.head_file)
              (Some (Examples.one_file Examples.base_file)) ∅ (λ _, [])
              Examples.empty_redis Examples.down Examples.cmp
              [Examples.yielded] Examples.cmp Examples.down Examples.all_yielded)
    as (Hinit & _ & Hwrite).
  - reflexivity.
  - split; [exact Hinit|]. split; [vm_compute; reflexivity|].
    apply Hwrite.
    + vm_compute. reflexivity.
    + reflexivity.
    + vm_compute. reflexivity.
Defined.

(** ** Hints without a cache entry *)

(** X12: a comparison built without pull id, or while the cache holds
    nothing (or null) under the key of the pull request, passes the hint
    [None] to every file comparison it builds, and the pass over such a
    file is never left out. These are the only comparisons that do so. *)
Theorem hint_unknown_without_cache (pull : option Z) (service username repo_name : string)
    (head : Report) (base : option Report) (diff : gmap string diff_data)
    (source : string → list string) (r : Redis) (self : Comparison) (file_name : string)
    (with_src bypass : bool) :
  new_Comparison pull service username repo_name head base diff source r = Ok self →
  ∃ fc,
    get_file_comparison self file_name with_src bypass = Ok fc ∧
    (should_search_for_changes fc = None ↔
       pull = None ∨
       ∃ p, pull = Some p ∧
            (store r !! cache_key service username repo_name p = None ∨
             store r !! cache_key service username repo_name p = Some JNull)) ∧
    (should_search_for_changes fc = None → runs_pass fc = true).
Proof.
  intros Hself.
  apply new_Comparison_Ok in Hself as (probe & Hprobe & ->).
  apply probe_Ok in Hprobe.
  match goal with
  | |- ∃ fc, get_file_comparison ?c _ _ _ = _ ∧ _ =>
      destruct (get_file_comparison_hint c file_name with_src bypass) as (fc & Hfc & Hhint)
  end.
  exists fc. split; [done|]. simpl in Hhint. split.
  - rewrite Hhint. destruct pull as [p|].
    + destruct Hprobe as [_ ->].
      destruct (store r !! cache_key service username repo_name p) as [[|l]|] eqn:Hkey;
        simpl.
      * split; [|done]. intros _. right. exists p. split; [done|]. by right.
      * split; [done|]. intros [?|(p' & [= <-] & [Hk|Hk])]; try done.
        all: rewrite Hkey in Hk; discriminate Hk.
      * split; [|done]. intros _. right. exists p. split; [done|]. by left.
    + subst probe. split; [|done]. intros _. by left.
  - intros Hnone. unfold runs_pass. rewrite Hnone. by rewrite orb_true_r.
Qed.

Lemma hint_unknown_without_cache_witness :
  ∃ fc,
    get_file_comparison Examples.cmp "a.py" false false = Ok fc ∧
    (should_search_for_changes fc = None ↔
       Some 7 = None ∨
       ∃ p, Some 7 = Some p ∧
            (store Examples.null_cached !! cache_key "github" "codecov" "api" p = None ∨
             store Examples.null_cached !! cache_key "github" "codecov" "api" p
               = Some JNull)) ∧
    (should_search_for_changes fc = None → runs_pass fc = true).
Proof.
  apply (hint_unknown_without_cache (Some 7) "github" "codecov" "api"
           (Examples.one_file Examples.head_file)
           (Some (Examples.one_file Examples.base_file)) ∅ (λ _, [])
           Examples.null_cached Examples.cmp "a.py" false false).
  vm_compute. reflexivity.
Defined.

(** ** Truncation over the life of a file comparison *)

Section Truncation.
Context `{Shared}.

Lemma calculated_keeps_truncated fuel fc s l fc' :
  truncated fc → _calculated_changes_and_lines fuel fc = Ok (s, l, fc') → truncated fc'.
Proof.
  unfold _calculated_changes_and_lines. intros Htr.
  destruct (slot_calculated fc) as [[s0 l0]|]; [by intros [= <- <- <-]|].
  intros E. inv_bind E as [[s1 l1] segs] Hcalc. by injection E as <- <- <-.
Qed.

Lemma read_keeps_truncated fuel a fc fc' :
  truncated fc → read fuel a fc = Ok fc' → truncated fc'.
Proof.
  intros Htr. destruct a; simpl.
  - destruct (_calculated_changes_and_lines fuel fc) as [[[s l] fc1]| |] eqn:E;
      simpl; intros [= <-]. by eapply calculated_keeps_truncated.
  - unfold change_summary. destruct (slot_change_summary fc); simpl.
    { by intros [= <-]. }
    destruct (_calculated_changes_and_lines fuel fc) as [[[s l] fc1]| |] eqn:E;
      simpl; intros [= <-].
    by apply (calculated_keeps_truncated _ _ _ _ _ Htr) in E.
  - unfold lines. destruct Htr as (Hlen & Hby & Hslot).
    destruct (slot_lines fc) as [stored|] eqn:Hs.
    { simpl. intros [= <-]. split; [done|]. split; [done|]. by rewrite Hs. }
    rewrite (bool_decide_eq_true_2 _ Hlen), Hby. simpl. intros [= <-].
    split; [done|]. split; [done|]. by right.
Qed.

Lemma read_all_keeps_truncated fuel accesses : ∀ fc fc',
  truncated fc → read_all fuel accesses fc = Ok fc' → truncated fc'.
Proof.
  induction accesses as [|a accesses IH]; intros fc fc' Htr; simpl.
  - by intros [= <-].
  - intros E. inv_bind E as fc1 Hread. eauto using read_keeps_truncated.
Qed.

(** X13: a file comparison built over the size limit without bypass keeps
    answering [lines] with [None] after any reads of its cached
    properties, for any budget of turns: the limit is judged on the length
    taken in [__init__], not on the segments, which the pass empties. *)
Theorem lines_stay_truncated (fuel fuel' : nat) (accesses : list access)
    (base_file head_file : option ReportFile) (diff : option diff_data)
    (source : list string) (hint : option bool) (fc fc' : FileComparison) :
  new_FileComparison base_file head_file diff source false hint = Ok fc →
  170 < diff_line_count diff →
  read_all fuel accesses fc = Ok fc' →
  fst <$> lines fuel' fc' = Ok None.
Proof.
  rewrite new_FileComparison_ok. intros [= <-] Hlen Hread.
  apply read_all_keeps_truncated in Hread as (Hlen' & Hby & Hslot).
  2:{ split; [unfold MAX_DIFF_SIZE; simpl; lia|]. split; [done | by left]. }
  unfold lines. destruct Hslot as [->| ->]; [|done].
  by rewrite (bool_decide_eq_true_2 _ Hlen'), Hby.
Qed.
End Truncation.

Lemma lines_stay_truncated_witness :
  fst <$> @lines Examples.shared 0 Examples.big_read = Ok None.
Proof.
  apply (@lines_stay_truncated Examples.shared 171 0 [GetChangeSummary; GetLines]
           None None (Some Examples.big_diff) [] None Examples.big Examples.big_read).
  - vm_compute. reflexivity.
  - vm_compute. reflexivity.
  - vm_compute. reflexivity.
Defined.

(** ** Where the coverage-line lookup gives no line *)

(** X14: the lookup gives no line, without raising, for a missing file or
    number, for a line number past the end of the file and for a line
    number at or below minus the number of lines. For a line number from 1
    to the number of lines it reads the cell of that line: an empty cell
    gives no line, a line array is returned as it is, and for a text the
    result of [json.loads] is returned as it is, be it a line, [None] or
    an exception. *)
Theorem _get_line_range `{Shared} (rf : ReportFile) (ln : Z) :
  _get_line None (Some ln) = Ok None ∧ _get_line (Some rf) None = Ok None ∧
  (Z.of_nat (length (_lines rf)) < ln ∨ ln ≤ - Z.of_nat (length (_lines rf)) →
     _get_line (Some rf) (Some ln) = Ok None) ∧
  (1 ≤ ln ≤ Z.of_nat (length (_lines rf)) →
     _get_line (Some rf) (Some ln) =
     match _lines rf !! Z.to_nat (ln - 1) with
     | Some (CellList l) => Ok (Some l)
     | Some (CellStr s) => json_loads s
     | _ => Ok None
     end).
Proof.
  split; [done|]. split; [done|]. split.
  - intros [Habove|Hbelow]; [by apply _get_line_past_the_end|].
    unfold _get_line, py_index.
    rewrite (bool_decide_eq_true_2 (ln - 1 < 0)) by lia.
    by rewrite bool_decide_eq_false_2 by lia.
  - intros Hin. unfold _get_line. rewrite py_index_in_range by lia.
    destruct (lookup_lt_is_Some_2 (_lines rf) (Z.to_nat (ln - 1))) as [c Hc]; [lia|].
    rewrite Hc. simpl. by destruct c.
Qed.

Lemma _get_line_range_witness :
  @_get_line Examples.shared (Some Examples.two_lines) (Some 3) = Ok None ∧
  @_get_line Examples.shared (Some Examples.two_lines) (Some 2) = Ok (Some Examples.covered) ∧
  @_get_line Examples.shared (Some Examples.old_lines) (Some 1) = Ok None ∧
  @_get_line Examples.shared (Some Examples.old_lines) (Some 2) = Ok (Some Examples.covered) ∧
  @_get_line Examples.shared (Some Examples.old_lines) (Some 3) = Raise ValueError.
Proof.
  destruct (@_get_line_range Examples.shared Examples.two_lines 3) as (_ & _ & Hout & _).
  destruct (@_get_line_range Examples.shared Examples.two_lines 2) as (_ & _ & _ & Hin).
  destruct (@_get_line_range Examples.shared Examples.old_lines 1) as (_ & _ & _ & Hnull).
  destruct (@_get_line_range Examples.shared Examples.old_lines 2) as (_ & _ & _ & Hline).
  destruct (@_get_line_range Examples.shared Examples.old_lines 3) as (_ & _ & _ & Hbad).
  split; [apply Hout; left; simpl; lia|].
  split; [rewrite Hin; [reflexivity | simpl; lia]|].
  split; [rewrite Hnull; [reflexivity | simpl; lia]|].
  split; [rewrite Hline; [reflexivity | simpl; lia]|].
  rewrite Hbad; [reflexivity | simpl; lia].
Defined.

(** ** What the generator yields *)

Section Yields.
Context `{Shared}.

Lemma next_yield_file fuel c r g file_name rest y c' r' g' :
  returned g = false → pending g = file_name :: rest →
  next fuel c r g = Ok (y, c', r', g') →
  ∃ fc, y = Some fc ∧
    fc_head_file fc = file_reports (head_report c) !! file_name ∧
    is_Some (slot_change_summary fc) ∧ (passes fc ≤ 1)%nat.
Proof.
  unfold next. intros -> -> E.
  inv_bind E as fc0 Hfc0. inv_bind E as [s fc] Hcs. injection E as <- <- <- <-.
  exists fc. split; [done|].
  unfold get_file_comparison in Hfc0. rewrite new_FileComparison_ok in Hfc0.
  injection Hfc0 as <-.
  unfold change_summary, _calculated_changes_and_lines in Hcs. simpl in Hcs.
  inv_bind Hcs as [[s1 l1] fc1] Hcalc. injection Hcs as <- <-.
  inv_bind Hcalc as [[s2 l2] segs] Hcalc2. injection Hcalc as <- <- <-.
  simpl. split; [done|]. split; [by eexists|]. destruct (runs_pass _); lia.
Qed.

Lemma take_yields fuel k : ∀ c r g ys c' r' g',
  returned g = false → take k fuel c r g = Ok (ys, c', r', g') →
  Forall2 (λ file_name fc,
             fc_head_file fc = file_reports (head_report c) !! file_name ∧
             is_Some (slot_change_summary fc) ∧ (passes fc ≤ 1)%nat)
          (firstn k (pending g)) ys.
Proof.
  induction k as [|k IH]; intros c r g ys c' r' g' Hg.
  - simpl. intros [= <- <- <- <-]. constructor.
  - rewrite take_succ. intros E. inv_bind E as [[[y c1] r1] g1] Hnext.
    inv_bind E as [[[ys1 c2] r2] g2] Htake. injection E as <- <- <- <-.
    destruct (pending g) as [|file_name rest] eqn:Hpend.
    + unfold next in Hnext. rewrite Hg, Hpend in Hnext.
      inv_bind Hnext as r0 Hset. injection Hnext as <- <- <- <-.
      rewrite take_returned in Htake by done. injection Htake as <- <- <- <-.
      constructor.
    + destruct (next_yield_file _ _ _ _ _ _ _ _ _ _ Hg Hpend Hnext) as (fc & -> & Hfc).
      destruct (next_yield _ _ _ _ _ _ _ _ _ _ Hg Hpend Hnext)
        as (fc' & [= <-] & _ & Hview & Hg1 & Hpend1 & _).
      apply IH in Htake; [|done]. rewrite Hpend1 in Htake. simpl.
      constructor; [done|].
      destruct Hview as (_ & _ & _ & _ & _ & Hhead). by rewrite Hhead in Htake.
Qed.

(** X15: when the generator of [files] is run to its end, it has yielded
    one file comparison per file name of the head report, in the order of
    the report, each built on the head file of that name, with its change
    summary already computed by at most one pass. *)
Theorem files_yields_each_file (fuel k : nat) (self c' : Comparison) (r r' : Redis)
    (ys : list FileComparison) (g' : files_generator) :
  (length (report_files (head_report self)) < k)%nat →
  take k fuel self r (files self) = Ok (ys, c', r', g') →
  Forall2 (λ file_name fc,
             fc_head_file fc = file_reports (head_report self) !! file_name ∧
             is_Some (slot_change_summary fc) ∧ (passes fc ≤ 1)%nat)
          (report_files (head_report self)) ys.
Proof.
  intros Hk Htake. apply take_yields in Htake; [|done].
  simpl in Htake. by rewrite firstn_all2 in Htake by lia.
Qed.

Lemma take_beyond fuel k : ∀ c r g,
  returned g = false → (length (pending g) < k)%nat →
  take k fuel c r g = take (S (length (pending g))) fuel c r g.
Proof.
  induction k as [|k IH]; intros c r g Hg Hk; [lia|].
  rewrite !take_succ. destruct (pending g) as [|file_name rest] eqn:Hpend.
  - unfold next. rewrite Hg, Hpend.
    destruct (_set_files_with_changes_in_cache_if_not_already_set _ _ _) as [r0| |];
      simpl; try done.
    by rewrite take_returned.
  - destruct (next fuel c r g) as [[[[y c1] r1] g1]| |] eqn:Hnext; simpl; try done.
    destruct (next_yield _ _ _ _ _ _ _ _ _ _ Hg Hpend Hnext)
      as (fc & -> & -> & _ & Hg1 & Hpend1 & _).
    rewrite (IH c1 r g1 Hg1) by (rewrite Hpend1; simpl in Hk; lia).
    by rewrite Hpend1.
Qed.

(** X16: calls of [next] after the one that follows the last file yield
    nothing more and leave the cache and the generator as they are, so the
    list of changed files is written at most once. *)
Theorem files_returns_once (fuel k : nat) (self : Comparison) (r : Redis) :
  (length (report_files (head_report self)) < k)%nat →
  take k fuel self r (files self) =
  take (S (length (report_files (head_report self)))) fuel self r (files self).
Proof. intros Hk. by apply (take_beyond fuel k self r (files self)). Qed.
End Yields.

Lemma files_yields_each_file_witness :
  Forall2 (λ file_name fc,
             fc_head_file fc = file_reports (head_report Examples.cmp) !! file_name ∧
             is_Some (slot_change_summary fc) ∧ (passes fc ≤ 1)%nat)
          (report_files (head_report Examples.cmp)) [Examples.yielded].
Proof.
  apply (@files_yields_each_file Examples.shared 1 2 Examples.cmp Examples.cmp
           Examples.empty_redis Examples.cache_after [Examples.yielded] Examples.exhausted).
  - simpl. lia.
  - vm_compute. reflexivity.
Defined.

Lemma files_returns_once_witness :
  @take Examples.shared 3 1 Examples.cmp Examples.empty_redis (files Examples.cmp) =
  @take Examples.shared (S (length (report_files (head_report Examples.cmp)))) 1
    Examples.cmp Examples.empty_redis (files Examples.cmp).
Proof.
  apply (@files_returns_once Examples.shared 1 3 Examples.cmp Examples.empty_redis).
  simpl. lia.
Defined.
